(** * Loss library of the deblurring GAN: a shallow embedding

    The development follows [deblurrer/model/losses.py] (the four loss
    functions), the pixel normalisation of
    [deblurrer/scripts/datasets/generate_dataset.py] and its inverse in
    [deblurrer/model/callbacks.py].

    Numbers.  A tensor element is a [tfloat]: a rational, one of the two
    infinities, or NaN.  Arithmetic on finite elements is exact rational
    arithmetic (no rounding, no overflow, one unsigned zero); the special
    values follow IEEE-754, so that a division by zero yields an infinity
    or NaN and never an exception, as TensorFlow's float kernels do.
    A float32 kernel agrees with the exact result, up to rounding, only
    while every intermediate value stays within the float32 range: the
    statements on the value, the size or the sign of a loss therefore
    bound the magnitude of its inputs, so that no square and no sum can
    pass [float32_max].

    Tensors.  A tensor is a shape together with its elements in row-major
    order.  Element-wise binary kernels are modelled on operands of one
    shape, which is the only way the source uses them; on operands of
    different shapes the model raises [InvalidArgumentError] (TensorFlow
    raises it too unless the shapes happen to be broadcast-compatible, a
    case outside this development: every statement below that combines two
    independent tensors assumes equal shapes).

    Effects.  [tf.random.uniform] reads the global random generator; here
    the generator is an explicit state [rng] threaded through the calls,
    and TensorFlow exceptions are the [Raised] outcome. *)

From Stdlib Require Import String Ascii DecimalString DecimalZ DecimalPos QArith Qround Lqa Lia ZArith Arith List Bool Permutation.
Import ListNotations.
Local Open Scope Q_scope.

(* ================================================================== *)
(** ** Floating-point values with exceptional elements *)

Module Float.

Inductive tfloat : Type :=
| Fin (q : Q)          (* a finite value *)
| Inf (neg : bool)     (* +inf ([false]) or -inf ([true]) *)
| NaN.

Definition Qzero (q : Q) : bool := Qeq_bool q 0.
Definition Qneg (q : Q) : bool := if Qlt_le_dec q 0 then true else false.

Definition fadd (x y : tfloat) : tfloat :=
  match x, y with
  | NaN, _ | _, NaN => NaN
  | Fin a, Fin b => Fin (a + b)
  | Inf s, Fin _ | Fin _, Inf s => Inf s
  | Inf s, Inf s' => if Bool.eqb s s' then Inf s else NaN
  end.

Definition fopp (x : tfloat) : tfloat :=
  match x with
  | Fin a => Fin (- a)
  | Inf s => Inf (negb s)
  | NaN => NaN
  end.

Definition fsub (x y : tfloat) : tfloat := fadd x (fopp y).

Definition fmul (x y : tfloat) : tfloat :=
  match x, y with
  | NaN, _ | _, NaN => NaN
  | Fin a, Fin b => Fin (a * b)
  | Inf s, Fin a | Fin a, Inf s => if Qzero a then NaN else Inf (xorb s (Qneg a))
  | Inf s, Inf s' => Inf (xorb s s')
  end.

Definition fdiv (x y : tfloat) : tfloat :=
  match x, y with
  | NaN, _ | _, NaN => NaN
  | Fin a, Fin b =>
      if Qzero b then (if Qzero a then NaN else Inf (Qneg a)) else Fin (a / b)
  | Fin _, Inf _ => Fin 0
  | Inf s, Fin b => Inf (xorb s (Qneg b))
  | Inf _, Inf _ => NaN
  end.

Definition fsquare (x : tfloat) : tfloat := fmul x x.

(** The cast of a non-negative integer (an element count, a dimension
    product) to the float type. *)
Definition of_nat (n : nat) : tfloat := Fin (inject_Z (Z.of_nat n)).

Definition is_finite (x : tfloat) : Prop :=
  match x with Fin _ => True | _ => False end.

(** Two floats denote the same value. *)
Definition feq (x y : tfloat) : Prop :=
  match x, y with
  | Fin a, Fin b => a == b
  | Inf s, Inf s' => s = s'
  | NaN, NaN => True
  | _, _ => False
  end.

(** [0 <= x] as the comparison of TensorFlow decides it: false on NaN. *)
Definition nonneg (x : tfloat) : Prop :=
  match x with
  | Fin a => 0 <= a
  | Inf s => s = false
  | NaN => False
  end.

End Float.
Export Float.

Infix "≈" := feq (at level 70, no associativity).

(** The largest finite float32, [(2 - 2^-23) * 2^127], the smallest
    positive one, [2^-149], and the largest finite double,
    [(2 - 2^-52) * 2^1023]. *)
Definition float32_max_int : Z := Eval vm_compute in ((2 ^ 24 - 1) * 2 ^ 104)%Z.
Definition float32_max : Q := inject_Z float32_max_int.
Definition double_max_int : Z := Eval vm_compute in ((2 ^ 53 - 1) * 2 ^ 971)%Z.

(** The conversion of a number to float32: beyond the largest float32 it
    is an infinity. *)
Definition to_float32 (x : Q) : tfloat :=
  if Qle_bool (- float32_max) x && Qle_bool x float32_max
  then Fin x
  else Inf (Qneg x).

(* ================================================================== *)
(** ** Outcomes of a call and the random generator *)

Inductive tf_error : Type :=
| InvalidArgumentError
| TypeError
| ValueError.

Inductive outcome (A : Type) : Type :=
| Returned (a : A)
| Raised (e : tf_error).
Arguments Returned {A} a.
Arguments Raised {A} e.

Definition obind {A B} (m : outcome A) (k : A -> outcome B) : outcome B :=
  match m with
  | Returned a => k a
  | Raised e => Raised e
  end.

(** The global random generator: the sequence of raw draws in [0, 1) it
    is going to deliver, and how many of them have been consumed. *)
Record rng : Type := { tape : nat -> Q; cursor : nat }.

Definition rng_valid (g : rng) : Prop := forall i, 0 <= tape g i /\ tape g i < 1.

(** Computations that may raise and that may draw random numbers. *)
Definition M (A : Type) : Type := rng -> outcome (A * rng).

Definition ret {A} (a : A) : M A := fun g => Returned (a, g).

Definition bind {A B} (m : M A) (k : A -> M B) : M B :=
  fun g =>
    match m g with
    | Returned (a, g') => k a g'
    | Raised e => Raised e
    end.

(** A computation that may raise but leaves the generator alone. *)
Definition lift {A} (o : outcome A) : M A :=
  fun g =>
    match o with
    | Returned a => Returned (a, g)
    | Raised e => Raised e
    end.

Declare Scope tf_scope.
Delimit Scope tf_scope with tf.
Notation "x <- m ;; k" := (bind m (fun x => k))
  (at level 61, m at next level, right associativity) : tf_scope.
Notation "x <~ o ;; k" := (bind (lift o) (fun x => k))
  (at level 61, o at next level, right associativity) : tf_scope.

(* ================================================================== *)
(** ** Tensors and the TensorFlow kernels the losses call *)

Record tensor : Type := { shape : list nat; data : list tfloat }.

Definition numel (s : list nat) : nat := fold_right Nat.mul 1%nat s.

(** The elements fill the shape. *)
Definition wf (t : tensor) : Prop := length (data t) = numel (shape t).


(** A tensor of finite elements. *)
Definition of_Q (s : list nat) (l : list Q) : tensor :=
  {| shape := s; data := map Fin l |}.

Fixpoint zip_with {A B C} (f : A -> B -> C) (l : list A) (l' : list B) : list C :=
  match l, l' with
  | a :: t, b :: t' => f a b :: zip_with f t t'
  | _, _ => []
  end.

(** Unary kernels, and binary kernels with a scalar operand. *)
Definition tf_map (f : tfloat -> tfloat) (t : tensor) : tensor :=
  {| shape := shape t; data := map f (data t) |}.

(** Binary element-wise kernels. *)
Definition elementwise (f : tfloat -> tfloat -> tfloat) (a b : tensor)
  : outcome tensor :=
  if list_eq_dec Nat.eq_dec (shape a) (shape b)
  then Returned {| shape := shape a; data := zip_with f (data a) (data b) |}
  else Raised InvalidArgumentError.

Definition tf_add := elementwise fadd.
Definition tf_subtract := elementwise fsub.
Definition tf_multiply := elementwise fmul.
Definition tf_square := tf_map fsquare.

(** [tf.ones_like(t)]. *)
Definition ones_like (t : tensor) : tensor :=
  {| shape := shape t; data := repeat (Fin 1) (numel (shape t)) |}.

Definition fsum (l : list tfloat) : tfloat := fold_right fadd (Fin 0) l.

(** [tf.reduce_mean(t)]: the sum of all elements over their number; NaN
    on a tensor without elements (0/0). *)
Definition reduce_mean (t : tensor) : tfloat :=
  fdiv (fsum (data t)) (of_nat (length (data t))).

(** [tf.math.reduce_prod(tf.shape(t)[1:])]. *)
Definition per_sample_count (t : tensor) : nat := numel (tl (shape t)).

(** [tf.divide(t, d)] with a scalar divisor. *)
Definition tf_divide (t : tensor) (d : tfloat) : tensor :=
  tf_map (fun x => fdiv x d) t.

(** The rows of a row-major tensor along its last axis. *)
Fixpoint rows {A} (c n : nat) (l : list A) : list (list A) :=
  match n with
  | O => []
  | S n' => firstn c l :: rows c n' (skipn c l)
  end.

Definition mean_list (l : list tfloat) : tfloat :=
  fdiv (fsum l) (of_nat (length l)).



(** [tf.random.uniform(shape, minval, maxval)]: one raw draw per element,
    scaled into [[minval, maxval)]. *)
Definition random_uniform (s : list nat) (minval maxval : Q) : M tensor :=
  fun g =>
    Returned
      ({| shape := s;
          data := map (fun i => Fin (minval + (maxval - minval) * tape g (cursor g + i)))
                      (seq 0 (numel s)) |},
       {| tape := tape g; cursor := (cursor g + numel s)%nat |}).

(** The Python values a caller may pass for the [real_preds] flag. *)
Inductive pyval : Type :=
| PyBool (b : bool)
| PyInt (z : Z)
| PyFloat (x : Q)
| PyStr (s : string)
| PyNone.

(** [tf.constant(v, dtype=preds.dtype)] for the float32 dtype: Python
    numbers (and [bool], a subclass of [int]) are converted, a number
    beyond the float32 range becoming an infinity; an [int] that does not
    even fit a double and anything that is not a number are refused by
    the conversion. *)
Definition tf_constant (v : pyval) : outcome tfloat :=
  match v with
  | PyBool b => Returned (Fin (if b then 1 else 0))
  | PyInt z =>
      if (Z.abs z <=? double_max_int)%Z
      then Returned (to_float32 (inject_Z z))
      else Raised ValueError
  | PyFloat x => Returned (to_float32 x)
  | PyStr _ => Raised TypeError
  | PyNone => Raised ValueError
  end.

(* ================================================================== *)
(** ** The loss functions of [deblurrer/model/losses.py] *)

Local Open Scope tf_scope.

(** The discriminator's output: one score tensor per scale (the dict
    with the keys ['local'] and ['global']). *)
Record prediction_pair : Type := { local_ : tensor; global_ : tensor }.

(** Lines 27-32 of [ragan_ls_loss]: a tensor of ones plus a tenth of a
    uniform draw in [[-1, 1)] of the shape of [preds]. *)
Definition soft_label_factor (preds : tensor) : M tensor :=
  noise <- random_uniform (shape preds) (-1) 1 ;;
  lift (tf_add (ones_like preds) (tf_map (fmul (Fin 0.1)) noise)).

Definition ragan_ls_loss (preds : tensor) (real_preds : pyval) : M tfloat :=
  real_preds <~ tf_constant real_preds ;;
  soft_factor <- soft_label_factor preds ;;
  first_side <~ tf_multiply (tf_map (fmul real_preds) soft_factor)
                            (tf_square (tf_map (fun p => fsub p (Fin 1)) preds)) ;;
  second_side <~ tf_multiply (tf_map (fmul (fsub (Fin 1) real_preds)) soft_factor)
                             (tf_square (tf_map (fun p => fadd p (Fin 1)) preds)) ;;
  total <~ tf_add first_side second_side ;;
  ret (reduce_mean total).

Definition discriminator_loss (preds : prediction_pair) (real_preds : pyval)
  : M tfloat :=
  loss_l <- ragan_ls_loss (local_ preds) real_preds ;;
  loss_g <- ragan_ls_loss (global_ preds) real_preds ;;
  ret (fadd loss_l loss_g).

(** The feature network is a frozen, deterministic map on image batches
    (it is called with [training=False]). *)
Definition feature_reconstruction_loss
  (gen_images sharp_images : tensor) (loss_network : tensor -> tensor)
  : outcome tfloat :=
  let gen_output := loss_network gen_images in
  let sharp_output := loss_network sharp_images in
  obind (tf_subtract gen_output sharp_output) (fun loss =>
  let loss := tf_square loss in
  let loss := tf_divide loss (of_nat (per_sample_count gen_output)) in
  Returned (reduce_mean loss)).


(* ================================================================== *)
(** ** Pixel normalisation and its inverse *)

(** [transform], lines 81-82 of [generate_dataset.py]: the cast of a
    [uint8] pixel to float followed by [(x - 127.0) / 128.0]. *)
Definition normalize (x : Q) : Q := (x - 127) / 128.

Definition transform_pixels (pixels : list Z) : list Q :=
  map (fun p => normalize (inject_Z p)) pixels.

(** [SaveImageToDisk.save_image], line 57 of [callbacks.py]. *)
Definition denormalize (y : Q) : Q := y * 128 + 127.

(** [tf.cast(image, dtype=tf.uint8)] truncates toward zero.  The model
    gives the pixel on the values whose truncation is a [uint8]; outside
    that range the cast still yields some byte (it wraps), which the
    model leaves undetermined ([None]). *)
Definition cast_uint8 (y : Q) : option Z :=
  let z := if Qlt_le_dec y 0 then Z.opp (Qfloor (- y)) else Qfloor y in
  if ((0 <=? z) && (z <=? 255))%Z then Some z else None.

Definition save_image_pixels (image : list Q) : list (option Z) :=
  map (fun y => cast_uint8 (denormalize y)) image.

(* ================================================================== *)
(** ** The statements' vocabulary *)

(** The mean of a list of rationals, as [tf.reduce_mean] returns it. *)
Definition Qsum (l : list Q) : Q := fold_right Qplus 0 l.

Definition Qmean (l : list Q) : tfloat :=
  match l with
  | [] => NaN
  | _ :: _ => Fin (Qsum l / inject_Z (Z.of_nat (length l)))
  end.

(** The soft-label factors of a call that finds the generator in state
    [g] and asks for [n] elements: one plus a tenth of the draws. *)
Definition draw_index (g : rng) (i : nat) : nat := (cursor g + i)%nat.

Definition noise_at (g : rng) (i : nat) : Q :=
  -1 + (1 - -1) * tape g (draw_index g i).

Definition soft_factors (g : rng) (n : nat) : list Q :=
  map (fun i => 1 + 0.1 * noise_at g i) (seq 0 n).

Definition advance (g : rng) (n : nat) : rng :=
  {| tape := tape g; cursor := (cursor g + n)%nat |}.

(** The per-element term of the relativistic loss, in the words of the
    specification. *)
Definition ragan_term (r f p : Q) : Q :=
  r * f * (p - 1) ^ 2 + (1 - r) * f * (p + 1) ^ 2.

Definition flag_weight (b : bool) : Q := if b then 1 else 0.

(** The term that is active on real predictions, and the one that is
    active on fake predictions. *)
Definition real_branch (f p : Q) : Q := f * (p - 1) ^ 2.
Definition fake_branch (f p : Q) : Q := f * (p + 1) ^ 2.

(** The same term as the kernels of [ragan_ls_loss] compute it. *)
Definition kernel_term (r f p : Q) : Q :=
  r * f * ((p + - (1)) * (p + - (1))) + (1 + - r) * f * ((p + 1) * (p + 1)).

(** The mean squared error over all dimensions, in the words of the
    specification. *)
Definition squared_error (a b : Q) : Q := (a - b) ^ 2.

Definition pixel_loss (sharp gen : list Q) : tfloat :=
  Qmean (zip_with squared_error sharp gen).


(** Inputs on which the statements below are exercised. *)
Definition sample_rng : rng :=
  {| tape := fun i => inject_Z (Z.of_nat (i mod 4)) / 4; cursor := 0 |}.

Definition sample_preds : tensor := of_Q [2; 1]%nat [1 # 2; -3 # 4].

Definition sample_pair : prediction_pair :=
  {| local_ := of_Q [2; 2]%nat [1; 0; -1; 1 # 3]; global_ := sample_preds |}.

(** A feature network whose output has no element per sample. *)
Definition degenerate_network (_ : tensor) : tensor :=
  {| shape := [2; 0]%nat; data := [] |}.


Definition sample_image : tensor := of_Q [2; 1; 1; 3]%nat [0; 1 # 2; 1; -1; 0; 1 # 4].

Definition sample_gen : list Q := [1 # 4; 1 # 2; 3 # 4; -1; 1 # 8; 0].
Definition sample_sharp : list Q := [0; 1 # 2; 1; -1; 0; 1 # 4].

(* ================================================================== *)
(** ** Further vocabulary for the loss library *)

(** The per-element term of [ragan_ls_loss] on arbitrary floats: lines
    34-37 applied to one soft factor [f] and one prediction [p]. *)
Definition float_term (r f p : tfloat) : tfloat :=
  fadd (fmul (fmul r f) (fsquare (fsub p (Fin 1))))
       (fmul (fmul (fsub (Fin 1) r) f) (fsquare (fadd p (Fin 1)))).

(** The value the loss pushes a prediction to: [1] on real images, [-1]
    on generated ones. *)
Definition target (b : bool) : Q := if b then 1 else -1.

(** The squared distances of the predictions to their target: the
    least-squares loss without the soft-label noise is their mean. *)
Definition plain_terms (b : bool) (ps : list Q) : list Q :=
  map (fun p => (p - target b) ^ 2) ps.

(* ================================================================== *)
(** ** The image-saving callback of [callbacks.py] *)

Module Callback.

(** What a method of the callback may raise: an error of a TensorFlow
    op, the failure of the JPEG encoder, or the read of an attribute that
    no method has set yet. *)
Inductive py_error : Type :=
| TensorFlowError (e : tf_error)
| EncodingFailed
| AttributeError.

Inductive result (A : Type) : Type :=
| Ok (a : A)
| Err (e : py_error).
Arguments Ok {A} a.
Arguments Err {A} e.

(** [tf.split(t, 2)]: the two halves of [t] along its first axis, which
    must have an even size. *)
Definition tf_split2 (t : tensor) : outcome (tensor * tensor) :=
  match shape t with
  | [] => Raised InvalidArgumentError
  | d :: rest =>
      if Nat.even d
      then let half := (d / 2)%nat in
           let n := (half * numel rest)%nat in
           Returned ({| shape := half :: rest; data := firstn n (data t) |},
                     {| shape := half :: rest; data := skipn n (data t) |})
      else Raised InvalidArgumentError
  end.

(** A [uint8] tensor; a pixel is [None] where the cast of line 58 is not
    determined (a value outside the [uint8] range, an infinity, NaN). *)
Record image8 : Type := { shape8 : list nat; pixels : list (option Z) }.

Definition to_uint8 (x : tfloat) : option Z :=
  match x with
  | Fin q => cast_uint8 q
  | _ => None
  end.

Definition tf_cast_uint8 (t : tensor) : image8 :=
  {| shape8 := shape t; pixels := map to_uint8 (data t) |}.

(** [tf.squeeze(t)] without an axis: every axis of size one is removed. *)
Definition tf_squeeze (t : image8) : image8 :=
  {| shape8 := filter (fun d => negb (d =? 1)%nat) (shape8 t);
     pixels := pixels t |}.

(** The name of a saved image: a string (['sharp'], ['blur']) or the
    number of an epoch. *)
Inductive file_label : Type :=
| Label (s : string)
| Number (z : Z).

(** What [str.format] substitutes for the label. *)
Definition format_label (l : file_label) : string :=
  match l with
  | Label s => s
  | Number z => NilZero.string_of_int (Z.to_int z)
  end.

(** ['{path}/{name}.jpg'.format(path=..., name=...)]. *)
Definition jpg_name (path name : string) : string :=
  (path ++ "/" ++ name ++ ".jpg")%string.

(** The attributes of the callback object; [folder] is set by
    [on_train_begin]. *)
Record callback : Type :=
  { path : string;
    sharp_image : tensor;
    blur_image : tensor;
    folder : option string }.

(** The files written so far, oldest first: name and content. *)
Definition disk : Type := list (string * string).

Section Methods.

(** The JPEG compressor behind [tf.io.encode_jpeg]: the bytes of an image
    of a given shape, or a failure. *)
Variable compress : list nat -> list (option Z) -> option string.
(** [self.model.generator]. *)
Variable generator : tensor -> tensor.

(** [tf.io.encode_jpeg(image)]: the image must have three axes and one
    or three channels. *)
Definition encode_jpeg (image : image8) : result string :=
  match shape8 image with
  | [_; _; c] =>
      if ((c =? 1) || (c =? 3))%nat
      then match compress (shape8 image) (pixels image) with
           | Some encoded => Ok encoded
           | None => Err EncodingFailed
           end
      else Err (TensorFlowError InvalidArgumentError)
  | _ => Err (TensorFlowError InvalidArgumentError)
  end.

Definition init (p : string) (test_image : tensor) : result callback :=
  match tf_split2 test_image with
  | Returned (sharp, blur) =>
      Ok {| path := p; sharp_image := sharp; blur_image := blur;
            folder := None |}
  | Raised e => Err (TensorFlowError e)
  end.

Definition save_image (self : callback) (image : tensor) (name : file_label)
  (d : disk) : result disk :=
  let image := tf_map (fun x => fadd (fmul x (Fin 128)) (Fin 127)) image in
  let image := tf_cast_uint8 image in
  let image := tf_squeeze image in
  match encode_jpeg image with
  | Err e => Err e
  | Ok encoded =>
      match folder self with
      | None => Err AttributeError
      | Some f =>
          let file_name := jpg_name f (format_label name) in
          Ok (d ++ [(file_name, encoded)])
      end
  end.

(** [on_train_begin]; [now] is the formatted current date and time. *)
Definition on_train_begin (self : callback) (now : string) (d : disk)
  : result (callback * disk) :=
  let self := {| path := path self;
                 sharp_image := sharp_image self;
                 blur_image := blur_image self;
                 folder := Some (jpg_name (path self) now) |} in
  match save_image self (sharp_image self) (Label "sharp") d with
  | Err e => Err e
  | Ok d1 =>
      match save_image self (blur_image self) (Label "blur") d1 with
      | Err e => Err e
      | Ok d2 => Ok (self, d2)
      end
  end.

Definition on_epoch_end (self : callback) (epoch : Z) (d : disk)
  : result disk :=
  let image := generator (blur_image self) in
  save_image self image (Number (epoch + 1)) d.

(** The calls a training run of [n] epochs makes, the first epoch being
    numbered [first]. *)
Fixpoint run_epochs (self : callback) (first : Z) (n : nat) (d : disk)
  : result disk :=
  match n with
  | O => Ok d
  | S k =>
      match on_epoch_end self first d with
      | Err e => Err e
      | Ok d' => run_epochs self (first + 1) k d'
      end
  end.

Definition session (p : string) (test_image : tensor) (now : string)
  (n : nat) : result disk :=
  match init p test_image with
  | Err e => Err e
  | Ok self =>
      match on_train_begin self now [] with
      | Err e => Err e
      | Ok (self, d) => run_epochs self 0 n d
      end
  end.

End Methods.

(** A compressor and a generator on which the callback is exercised. *)
Definition toy_compress (s : list nat) (px : list (option Z)) : option string :=
  if (numel s =? 0)%nat then None else Some "jpeg"%string.

Definition toy_image : tensor :=
  of_Q [2; 2; 2; 3]%nat (repeat (1 # 2) 24).

End Callback.

(* ================================================================== *)
(** ** The input pipeline of [generate_dataset.py] *)

Module Dataset.

(** In this module a tensor is the nesting of its axes: an image is its
    rows, a row its pixels, a pixel its channels.  The static shape that
    TensorFlow keeps beside the data (height, width, channels) is passed
    along with the batch. *)
Definition image : Type := list (list (list Z)).
Definition float_image : Type := list (list (list Q)).

Definition map_image {A B} (f : A -> B) (img : list (list (list A)))
  : list (list (list B)) :=
  map (map (map f)) img.

(** [sharp, blur = tf.unstack(example, axis=1)]: the unpacking into two
    names needs exactly two tensors along axis 1. *)
Definition unstack_pair {A} (example : list (list A)) (default : A)
  : outcome (list A * list A) :=
  if forallb (fun p => (length p =? 2)%nat) example
  then Returned (map (fun p => nth 0 p default) example,
                 map (fun p => nth 1 p default) example)
  else Raised ValueError.

(** The four raw integers [tf.image.random_crop] draws, one per axis. *)
Record crop_draws : Type :=
  { draw_batch : nat; draw_row : nat; draw_column : nat; draw_channel : nat }.

(** [tf.slice] of one image: [rows] rows from row [oy], [cols] pixels
    from column [ox], [chans] channels from channel [oc]. *)
Definition crop_image {A} (oy ox oc rows cols chans : nat)
  (img : list (list (list A))) : list (list (list A)) :=
  map (fun row => map (fun px => firstn chans (skipn oc px))
                      (firstn cols (skipn ox row)))
      (firstn rows (skipn oy img)).

(** [tf.image.random_crop(images, size=[batch_size, crop, crop, 3])] on a
    batch of [h] x [w] x [c] images: the size must fit in every axis; the
    offset of an axis is its raw draw modulo [shape - size + 1]. *)
Definition random_crop {A} (h w c : nat) (d : crop_draws)
  (images : list (list (list (list A)))) (crop_size : nat)
  : outcome (list (list (list (list A)))) :=
  let batch_size := length images in
  if ((crop_size <=? h) && (crop_size <=? w) && (3 <=? c))%nat
  then
    let ob := (draw_batch d mod (batch_size - batch_size + 1))%nat in
    let oy := (draw_row d mod (h - crop_size + 1))%nat in
    let ox := (draw_column d mod (w - crop_size + 1))%nat in
    let oc := (draw_channel d mod (c - 3 + 1))%nat in
    Returned (map (crop_image oy ox oc crop_size crop_size 3)
                  (firstn batch_size (skipn ob images)))
  else Raised InvalidArgumentError.

(** [tf.split(images, num_or_size_splits=2)] along axis 0. *)
Definition split2 {A} (images : list A) : outcome (list A * list A) :=
  if Nat.even (length images)
  then Returned (firstn (length images / 2) images,
                 skipn (length images / 2) images)
  else Raised InvalidArgumentError.

(** [tf.stack([sharp, blur], axis=1)]: the two batches must have one
    shape. *)
Definition stack_pair {A} (sharp blur : list A) : outcome (list (list A)) :=
  if (length sharp =? length blur)%nat
  then Returned (zip_with (fun s b => [s; b]) sharp blur)
  else Raised InvalidArgumentError.

(** [transform]; [crop_size] is the value of the environment variable
    [IMAGE_SIZE] (line 72). *)
Definition transform (h w c : nat) (crop_size : nat) (d : crop_draws)
  (example : list (list image)) : outcome (list (list float_image)) :=
  obind (unstack_pair example []) (fun '(sharp, blur) =>
  let images := sharp ++ blur in
  obind (random_crop h w c d images crop_size) (fun images =>
  let images := map (map_image (fun p => normalize (inject_Z p))) images in
  obind (split2 images) (fun '(sharp, blur) =>
  stack_pair sharp blur))).

(** The window [transform] cuts out of every image, and what it does to
    one image. *)
Definition window_row (h crop_size : nat) (d : crop_draws) : nat :=
  (draw_row d mod (h - crop_size + 1))%nat.
Definition window_column (w crop_size : nat) (d : crop_draws) : nat :=
  (draw_column d mod (w - crop_size + 1))%nat.
Definition window_channel (c : nat) (d : crop_draws) : nat :=
  (draw_channel d mod (c - 3 + 1))%nat.

Definition crop_and_normalize (h w c crop_size : nat) (d : crop_draws)
  (img : image) : float_image :=
  map_image (fun p => normalize (inject_Z p))
    (crop_image (window_row h crop_size d) (window_column w crop_size d)
                (window_channel c d) crop_size crop_size 3 img).

(** An image of [h] rows of [w] pixels of [c] channels. *)
Definition has_shape {A} (h w c : nat) (img : list (list (list A))) : Prop :=
  length img = h
  /\ Forall (fun row => length row = w
                        /\ Forall (fun px => length px = c) row) img.

(** [dataset.interleave(..., cycle_length=len(tfrecs), block_length=k)]:
    with one slot per file, a round takes the next [k] records (or what
    is left) of every file that still has records, in the order of the
    files. *)
Definition live {A} (shards : list (list A)) : list (list A) :=
  filter (fun s => negb (length s =? 0)%nat) shards.

Fixpoint interleave_rounds {A} (fuel k : nat) (shards : list (list A))
  : list A :=
  match fuel with
  | O => []
  | S fuel' =>
      match live shards with
      | [] => []
      | l => concat (map (firstn k) l)
             ++ interleave_rounds fuel' k (map (skipn k) l)
      end
  end.

Definition interleave {A} (k : nat) (shards : list (list A)) : list A :=
  interleave_rounds (length (concat shards)) k shards.

(** [dataset.batch(k)]: consecutive groups of [k] elements, the last one
    holding what is left. *)
Fixpoint batch_rounds {A} (fuel k : nat) (l : list A) : list (list A) :=
  match fuel with
  | O => []
  | S fuel' =>
      match l with
      | [] => []
      | _ :: _ => firstn k l :: batch_rounds fuel' k (skipn k l)
      end
  end.

Definition batch {A} (k : nat) (l : list A) : list (list A) :=
  batch_rounds (length l) k l.

(** [get_dataset] up to the call of [transform]: the records of the files
    (each file the list of its records, the files in the order [glob]
    lists them), interleaved, parsed and batched.  [batch_size] and the
    number of files are positive: [tf.data] rejects a zero block length,
    batch size or cycle length. *)
Definition get_dataset_batches {R E} (parse : R -> E) (batch_size : nat)
  (tfrecs : list (list R)) : list (list E) :=
  batch batch_size (map parse (interleave batch_size tfrecs)).

(** What is left of a file after [j] blocks of [k] records, and one block
    of [k] records of a file. *)
Definition tail_of {A} (k : nat) (shards : list (list A)) (t : list A) : Prop :=
  exists s j, In s shards /\ t = skipn (j * k) s.

Definition block_of {A} (k : nat) (shards : list (list A)) (b : list A) : Prop :=
  exists s j, In s shards /\ b = firstn k (skipn (j * k) s)
              /\ length b = k.

(** A small batch on which [transform] is exercised: two pairs of 3 x 3
    images with three channels. *)
Definition toy_pixel (v : Z) : list Z := [v; (v + 1)%Z; (v + 2)%Z].
Definition toy_picture (v : Z) : image :=
  [[toy_pixel v; toy_pixel (v + 10); toy_pixel (v + 20)];
   [toy_pixel (v + 30); toy_pixel (v + 40); toy_pixel (v + 50)];
   [toy_pixel (v + 60); toy_pixel (v + 70); toy_pixel (v + 80)]]%Z.
Definition toy_example : list (list image) :=
  [[toy_picture 0; toy_picture 100]; [toy_picture 5; toy_picture 105]]%Z.
Definition toy_draws : crop_draws :=
  {| draw_batch := 7; draw_row := 5; draw_column := 4; draw_channel := 9 |}.

End Dataset.

(* ================================================================== *)
(** ** Vocabulary for the images of a batch *)

(** Every value of an image satisfies [P]. *)
Definition all_values {A} (P : A -> Prop) (img : list (list (list A))) : Prop :=
  Forall (Forall (Forall P)) img.

Definition is_uint8 (p : Z) : Prop := (0 <= p <= 255)%Z.

Definition in_unit_range (x : Q) : Prop := - (127 # 128) <= x /\ x <= 1.

(* ================================================================== *)
(** ** Downloading and extracting the data: [download.py] *)

Module Download.

(** An absolute path is the list of its components; a file system maps
    the paths that exist to a file with its content or to a directory. *)
Definition path : Type := list string.

Inductive node : Type :=
| File (content : string)
| Directory.

Definition filesystem : Type := path -> option node.

Definition path_eqb (p q : path) : bool :=
  if list_eq_dec string_dec p q then true else false.

Definition put (fs : filesystem) (p : path) (n : node) : filesystem :=
  fun q => if path_eqb q p then Some n else fs q.

(** [os.path.exists], [os.path.isfile], [os.path.dirname],
    [os.path.join]. *)
Definition path_exists (fs : filesystem) (p : path) : bool :=
  match fs p with Some _ => true | None => false end.

Definition isfile (fs : filesystem) (p : path) : bool :=
  match fs p with Some (File _) => true | _ => false end.

Definition dirname (p : path) : path := removelast p.

Definition join (p : path) (name : string) : path := p ++ [name].

(** The exceptions of the operating system, of [requests] and of
    [zipfile] the script can meet. *)
Inductive py_error : Type :=
| FileNotFoundError
| FileExistsError
| NotADirectoryError
| IsADirectoryError
| MissingSchema
| ConnectionError
| BadZipFile.

Inductive result (A : Type) : Type :=
| Ok (a : A)
| Err (e : py_error).
Arguments Ok {A} a.
Arguments Err {A} e.

Definition rbind {A B} (m : result A) (k : A -> result B) : result B :=
  match m with
  | Ok a => k a
  | Err e => Err e
  end.

(** The directory an entry is created in must exist and be a directory. *)
Definition check_parent (fs : filesystem) (p : path) : result unit :=
  match fs (dirname p) with
  | Some Directory => Ok tt
  | Some (File _) => Err NotADirectoryError
  | None => Err FileNotFoundError
  end.

(** [os.mkdir(p)]. *)
Definition mkdir (fs : filesystem) (p : path) : result filesystem :=
  match fs p with
  | Some _ => Err FileExistsError
  | None => rbind (check_parent fs p) (fun _ => Ok (put fs p Directory))
  end.

(** [open(p, 'wb')]: the file is created, or emptied if it exists. *)
Definition open_wb (fs : filesystem) (p : path) : result filesystem :=
  match fs p with
  | Some Directory => Err IsADirectoryError
  | _ => rbind (check_parent fs p) (fun _ => Ok (put fs p (File "")))
  end.

(** [stream_file.write(block)] on the file opened at [p]. *)
Definition write_block (fs : filesystem) (p : path) (block : string)
  : filesystem :=
  match fs p with
  | Some (File content) => put fs p (File (content ++ block))
  | _ => fs
  end.

(** What the server answers: the [content-length] header, when there is
    one, and the blocks [iter_content] yields. *)
Record response : Type :=
  { content_length : option nat; blocks : list string }.

(** A line printed on the standard output. *)
Inductive line : Type :=
| Text (s : string)
| Sizes (total received : nat).

(** The state the script acts on: the file system and what has been
    printed so far. *)
Record world : Type := { disk : filesystem; printed : list line }.

Definition print (w : world) (l : line) : world :=
  {| disk := disk w; printed := printed w ++ [l] |}.

Fixpoint has_colon (url : string) : bool :=
  match url with
  | EmptyString => false
  | String c rest => if Ascii.eqb c ":" then true else has_colon rest
  end.

Section Script.

(** The network: what a well-formed request to a URL returns, or the
    failure of the connection. *)
Variable network : string -> result response.
(** [ZipFile(...).extractall(target)]: the file system after the members
    of the archive are written under [target], or [BadZipFile]. *)
Variable extractall : string -> path -> filesystem -> result filesystem.

(** [requests.get(url, stream=True)]: a URL without a scheme (hence any
    URL without a colon) is refused before anything is sent. *)
Definition requests_get (url : string) : result response :=
  if has_colon url then network url else Err MissingSchema.

(** [create_folder]; [file] is [os.path.abspath(__file__)]. *)
Definition create_folder (file : path) (w : world) : result (path * world) :=
  let folder_path := join (dirname (dirname (dirname file))) "dataset" in
  if negb (path_exists (disk w) folder_path)
  then rbind (mkdir (disk w) folder_path) (fun fs =>
       Ok (folder_path, {| disk := fs; printed := printed w |}))
  else Ok (folder_path, w).

(** The loop of lines 73-75: the progress count and the file after the
    blocks are written. *)
Definition write_blocks (fs : filesystem) (p : path) (bs : list string)
  : nat * filesystem :=
  fold_left (fun '(n, fs) block =>
               ((n + String.length block)%nat, write_block fs p block))
            bs (0%nat, fs).

Definition download (source_url : string) (download_path : path) (w : world)
  : result (bool * world) :=
  if negb (path_exists (disk w) download_path && isfile (disk w) download_path)
  then
    rbind (requests_get source_url) (fun resp =>
    let total_size := match content_length resp with
                      | Some n => n
                      | None => 0%nat
                      end in
    rbind (open_wb (disk w) download_path) (fun fs =>
    let '(n, fs) := write_blocks fs download_path (blocks resp) in
    let w := {| disk := fs; printed := printed w |} in
    if (negb (total_size =? 0) && negb (n =? total_size))%nat
    then Ok (false, print w (Sizes total_size n))
    else Ok (true, w)))
  else Ok (false, w).

Definition extract (file_path extract_path : path) (w : world)
  : result (bool * world) :=
  if path_exists (disk w) file_path && isfile (disk w) file_path
  then match disk w file_path with
       | Some (File content) =>
           rbind (extractall content extract_path (disk w)) (fun fs =>
           Ok (true, {| disk := fs; printed := printed w |}))
       | _ => Ok (false, w)
       end
  else Ok (false, w).

(** [execute], with the URL of line 115 as a parameter. *)
Definition execute_from (source_url : string) (file : path) (w : world)
  : result world :=
  rbind (create_folder file w) (fun '(folder_path, w) =>
  let download_path := join folder_path "blur.zip" in
  rbind (download source_url download_path w) (fun '(downloaded, w) =>
  let w := if negb downloaded
           then print w (Text "Error on download or file already downloaded")
           else w in
  if downloaded
  then
    let w := print w (Text "Extracting files") in
    rbind (extract download_path folder_path w) (fun '(extracted, w) =>
    let w := if negb extracted
             then print w (Text "Download path does not exists")
             else w in
    Ok (print w (Text "Extraction succesful")))
  else Ok w)).

Definition execute (file : path) (w : world) : result world :=
  execute_from "downlaod" file w.

End Script.

(** A file system, a server and an archive reader on which the script is
    exercised. *)
Definition toy_disk : filesystem :=
  fun p => if path_eqb p [] then Some Directory
           else if path_eqb p ["repo"%string] then Some Directory
           else None.

Definition toy_network (url : string) : result response :=
  Ok {| content_length := Some 6%nat; blocks := ["abc"%string; "de"%string] |}.

Definition toy_extractall (content : string) (target : path) (fs : filesystem)
  : result filesystem :=
  Ok (put fs (join target "blur") Directory).

Definition toy_script : path :=
  ["repo"; "scripts"; "datasets"; "download.py"]%string.

End Download.

(* ================================================================== *)
(** ** Vocabulary for the download script *)

(** The bytes of a response, block after block, and their number. *)
Definition join_blocks (bs : list string) : string :=
  fold_right append EmptyString bs.

Definition received (bs : list string) : nat :=
  fold_right (fun b n => (String.length b + n)%nat) 0%nat bs.

(** Whether [download] reports success on a response. *)
Definition complete (resp : Download.response) : bool :=
  match Download.content_length resp with
  | None => true
  | Some total =>
      ((total =? 0) || (received (Download.blocks resp) =? total))%nat
  end.

Definition declared_size (resp : Download.response) : nat :=
  match Download.content_length resp with
  | Some n => n
  | None => 0%nat
  end.

(* ================================================================== *)
(** ** Magnitudes within the float32 range *)

(** Every element lies within [B] of zero. *)
Definition bounded (B : Q) (l : list Q) : Prop :=
  Forall (fun x => - B <= x /\ x <= B) l.

(** The terms of the relativistic loss on [n] predictions within [B] of
    zero, and all their partial sums, stay within the float32 range: one
    term is at most [1.1 * (B + 1)^2]. *)
Definition ragan_fits (n : nat) (B : Q) : Prop :=
  inject_Z (Z.of_nat n) * (4 * (B + 1) ^ 2) <= float32_max.

(** The same with a numeric flag within [R] of zero as the weight: the
    two weights are at most [R] and [R + 1]. *)
Definition weighted_fits (n : nat) (R B : Q) : Prop :=
  R <= float32_max
  /\ inject_Z (Z.of_nat n) * (4 * (R + 1) * (B + 1) ^ 2) <= float32_max.



(** The active term alone, in the words of the specification, on
    arbitrary floats. *)
Definition real_branch_float (f p : tfloat) : tfloat :=
  fmul f (fsquare (fsub p (Fin 1))).

Definition fake_branch_float (f p : tfloat) : tfloat :=
  fmul f (fsquare (fadd p (Fin 1))).

(** A generator that differs from [g] at most in the draws at the [n]
    positions from the cursor of [g] on. *)
Definition redrawn (g g' : rng) (n : nat) : Prop :=
  cursor g' = cursor g
  /\ forall k, (k < cursor g \/ cursor g + n <= k)%nat -> tape g' k = tape g k.

(** The sample generator with other draws at its first two positions. *)
Definition sample_rng' : rng :=
  {| tape := fun i => if (i <? 2)%nat then 1 # 3 else tape sample_rng i;
     cursor := 0 |}.

(* ================================================================== *)
(** ** Properties of the float operations *)

Section FloatFacts.


Lemma feq_sym x y : x ≈ y -> y ≈ x.
Proof. destruct x, y; simpl; auto with qarith. Qed.


Lemma Qzero_true q : Qzero q = true <-> q == 0.
Proof. unfold Qzero. apply Qeq_bool_iff. Qed.

Lemma Qzero_false q : Qzero q = false <-> ~ q == 0.
Proof.
  rewrite <- Qzero_true. destruct (Qzero q); split; congruence.
Qed.



Lemma Qzero_of_nat n : Qzero (inject_Z (Z.of_nat n)) = Nat.eqb n 0.
Proof.
  destruct n as [|n].
  - reflexivity.
  - simpl Nat.eqb. apply Qzero_false. intros H.
    unfold Qeq in H. simpl in H. lia.
Qed.




End FloatFacts.

(* ================================================================== *)
(** ** Lists of finite elements *)

Section FiniteLists.

Lemma zip_with_length {A B C} (f : A -> B -> C) l l' :
  length (zip_with f l l') = Nat.min (length l) (length l').
Proof.
  revert l'; induction l as [|a l IH]; intros [|b l']; simpl; auto.
Qed.

Lemma zip_with_Fin f g (a b : list Q) :
  (forall x y, f (Fin x) (Fin y) = Fin (g x y)) ->
  zip_with f (map Fin a) (map Fin b) = map Fin (zip_with g a b).
Proof.
  intros H; revert b; induction a as [|x a IH]; intros [|y b]; simpl; auto.
  now rewrite H, IH.
Qed.

Lemma map_Fin f g (a : list Q) :
  (forall x, f (Fin x) = Fin (g x)) ->
  map f (map Fin a) = map Fin (map g a).
Proof.
  intros H; induction a as [|x a IH]; simpl; auto. now rewrite H, IH.
Qed.

Lemma zip_with_map_l {A A' B C} (f : A' -> B -> C) (h : A -> A') l l' :
  zip_with f (map h l) l' = zip_with (fun a b => f (h a) b) l l'.
Proof.
  revert l'; induction l as [|a l IH]; intros [|b l']; simpl; auto.
  now rewrite IH.
Qed.

Lemma zip_with_map_r {A B B' C} (f : A -> B' -> C) (h : B -> B') l l' :
  zip_with f l (map h l') = zip_with (fun a b => f a (h b)) l l'.
Proof.
  revert l'; induction l as [|a l IH]; intros [|b l']; simpl; auto.
  now rewrite IH.
Qed.



Lemma fsum_Fin l : fsum (map Fin l) = Fin (Qsum l).
Proof.
  induction l as [|x l IH]; [reflexivity|].
  change (fadd (Fin x) (fsum (map Fin l)) = Fin (x + Qsum l)).
  now rewrite IH.
Qed.

Lemma mean_list_Fin l : mean_list (map Fin l) = Qmean l.
Proof.
  unfold mean_list, of_nat. rewrite fsum_Fin, length_map. simpl.
  rewrite Qzero_of_nat. destruct l; reflexivity.
Qed.

Lemma Qsum_ext l l' : Forall2 Qeq l l' -> Qsum l == Qsum l'.
Proof.
  induction 1 as [|x y l l' Hxy _ IH]; simpl; [reflexivity|].
  now rewrite Hxy, IH.
Qed.

Lemma Qmean_ext l l' : Forall2 Qeq l l' -> Qmean l ≈ Qmean l'.
Proof.
  intros H. pose proof (Forall2_length H) as Hlen.
  pose proof (Qsum_ext _ _ H) as Hsum.
  destruct H; simpl; auto.
  simpl in Hlen, Hsum. injection Hlen as Hlen. rewrite Hlen.
  now rewrite Hsum.
Qed.

Lemma zip_with_ext (f g : Q -> Q -> Q) a b :
  (forall x y, f x y == g x y) ->
  Forall2 Qeq (zip_with f a b) (zip_with g a b).
Proof.
  intros H; revert b; induction a as [|x a IH]; intros [|y b]; simpl; auto.
Qed.

End FiniteLists.

(* ================================================================== *)
(** ** The relativistic loss on finite predictions *)

Section Ragan.

Lemma zip_with_repeat_seq {B C} (f : tfloat -> B -> C) c (h : nat -> B) a n :
  zip_with f (repeat c n) (map h (seq a n)) = map (fun i => f c (h i)) (seq a n).
Proof.
  revert a; induction n as [|n IH]; intros a; simpl; auto. now rewrite IH.
Qed.

Lemma zip_with_same {A B C D E} (k : C -> D -> E)
      (f1 : A -> B -> C) (f2 : A -> B -> D) l l' :
  zip_with k (zip_with f1 l l') (zip_with f2 l l')
  = zip_with (fun a b => k (f1 a b) (f2 a b)) l l'.
Proof.
  revert l'; induction l as [|a l IH]; intros [|b l']; simpl; auto.
  now rewrite IH.
Qed.

Lemma elementwise_same_shape f a b :
  shape a = shape b ->
  elementwise f a b
  = Returned {| shape := shape a; data := zip_with f (data a) (data b) |}.
Proof.
  intros H. unfold elementwise.
  destruct (list_eq_dec Nat.eq_dec (shape a) (shape b)); congruence.
Qed.

Lemma soft_label_factor_eval preds g :
  soft_label_factor preds g
  = Returned (of_Q (shape preds) (soft_factors g (numel (shape preds))),
              advance g (numel (shape preds))).
Proof.
  unfold soft_label_factor, bind, random_uniform, lift, tf_add.
  rewrite elementwise_same_shape by reflexivity.
  unfold of_Q, soft_factors, advance, noise_at. simpl.
  rewrite map_map, zip_with_repeat_seq, map_map. reflexivity.
Qed.

Lemma kernel_term_spec r f p : kernel_term r f p == ragan_term r f p.
Proof. unfold kernel_term, ragan_term. simpl. ring. Qed.

Lemma kernel_term_real f p : kernel_term 1 f p == real_branch f p.
Proof. unfold kernel_term, real_branch. simpl. ring. Qed.

Lemma bind_lift {A B} (a : A) (k : A -> M B) g :
  bind (lift (Returned a)) k g = k a g.
Proof. reflexivity. Qed.

Lemma bind_returned {A B} (m : M A) (k : A -> M B) g a g' :
  m g = Returned (a, g') -> bind m k g = k a g'.
Proof. intros H. unfold bind. now rewrite H. Qed.

Lemma bind_raised {A B} (m : M A) (k : A -> M B) g e :
  m g = Raised e -> bind m k g = Raised e.
Proof. intros H. unfold bind. now rewrite H. Qed.

Lemma ragan_ls_loss_finite s ps v r g :
  tf_constant v = Returned (Fin r) ->
  ragan_ls_loss (of_Q s ps) v g
  = Returned (Qmean (zip_with (kernel_term r) (soft_factors g (numel s)) ps),
              advance g (numel s)).
Proof.
  intros Hv. unfold ragan_ls_loss. rewrite Hv, bind_lift.
  rewrite (bind_returned _ _ _ _ _ (soft_label_factor_eval _ _)).
  cbn [shape of_Q].
  unfold tf_multiply, tf_add, tf_square.
  rewrite !elementwise_same_shape, !bind_lift by reflexivity.
  rewrite elementwise_same_shape, !bind_lift by reflexivity.
  unfold ret. do 2 f_equal.
  cbn [shape data tf_map of_Q].
  rewrite (map_Fin (fmul (Fin r)) (Qmult r)) by reflexivity.
  rewrite (map_Fin (fmul (fsub (Fin 1) (Fin r))) (Qmult (1 + - r))) by reflexivity.
  rewrite (map_Fin (fun p => fsub p (Fin 1)) (fun p => p + - (1))) by reflexivity.
  rewrite (map_Fin (fun p => fadd p (Fin 1)) (fun p => p + 1)) by reflexivity.
  rewrite !(map_Fin fsquare (fun x => x * x)) by reflexivity.
  rewrite !(zip_with_Fin fmul Qmult) by reflexivity.
  rewrite (zip_with_Fin fadd Qplus) by reflexivity.
  unfold reduce_mean. cbn [data].
  rewrite <- mean_list_Fin. unfold mean_list.
  rewrite !map_map, !zip_with_map_l, !zip_with_map_r.
  rewrite zip_with_same. reflexivity.
Qed.

End Ragan.

(* ================================================================== *)
(** ** The soft-label factor *)

Section SoftLabels.

Lemma sample_rng_valid : rng_valid sample_rng.
Proof.
  intros i. unfold sample_rng. cbn [tape].
  pose proof (Nat.mod_upper_bound i 4 ltac:(discriminate)) as H.
  assert (H0 : (0 <= Z.of_nat (i mod 4) < 4)%Z) by lia.
  destruct H0 as [Hl Hu].
  split.
  - apply Qle_shift_div_l; [reflexivity|]. 
    rewrite Qmult_0_l. change 0 with (inject_Z 0). now rewrite <- Zle_Qle.
  - apply Qlt_shift_div_r; [reflexivity|].
    change (1 * 4) with (inject_Z 4). now rewrite <- Zlt_Qlt.
Qed.

Lemma noise_range g i : rng_valid g -> -1 <= noise_at g i /\ noise_at g i < 1.
Proof.
  intros Hg. unfold noise_at. destruct (Hg (draw_index g i)). lra.
Qed.

Lemma nth_map_seq {A} (h : nat -> A) a n i d :
  (i < n)%nat -> nth i (map h (seq a n)) d = h (a + i)%nat.
Proof.
  revert a i; induction n as [|n IH]; intros a [|i] Hi; simpl; try lia.
  - now rewrite Nat.add_0_r.
  - rewrite IH by lia. f_equal. lia.
Qed.

Lemma soft_factors_length g n : length (soft_factors g n) = n.
Proof. unfold soft_factors. now rewrite length_map, length_seq. Qed.

Lemma soft_factors_nth g n i :
  (i < n)%nat -> nth i (soft_factors g n) 0 = 1 + 0.1 * noise_at g i.
Proof.
  intros Hi. unfold soft_factors. now rewrite nth_map_seq.
Qed.

Lemma soft_factors_range g n f :
  rng_valid g -> In f (soft_factors g n) -> 0.9 <= f /\ f <= 1.1.
Proof.
  intros Hg Hin. unfold soft_factors in Hin.
  apply in_map_iff in Hin. destruct Hin as (i & <- & _).
  destruct (noise_range g i Hg). lra.
Qed.

(** Any call whose flag converts leaves the generator advanced by the
    number of elements of [preds], whatever the predictions hold. *)
Lemma ragan_ls_loss_returns preds v r g :
  tf_constant v = Returned r ->
  exists x, ragan_ls_loss preds v g
            = Returned (x, advance g (numel (shape preds))).
Proof.
  intros Hv. unfold ragan_ls_loss. rewrite Hv, bind_lift.
  rewrite (bind_returned _ _ _ _ _ (soft_label_factor_eval _ _)).
  unfold tf_multiply, tf_add, tf_square.
  rewrite !elementwise_same_shape, !bind_lift by reflexivity.
  rewrite elementwise_same_shape, !bind_lift by reflexivity.
  eexists. reflexivity.
Qed.

End SoftLabels.

(* ================================================================== *)
(** ** Value of the relativistic loss *)

Section RaganValue.

Lemma Qmean_zip_ext (f g : Q -> Q -> Q) a b :
  (forall x y, f x y == g x y) ->
  Qmean (zip_with f a b) ≈ Qmean (zip_with g a b).
Proof. intros H. now apply Qmean_ext, zip_with_ext. Qed.

Lemma Qsum_nonneg l : Forall (fun x => 0 <= x) l -> 0 <= Qsum l.
Proof.
  induction 1 as [|x l Hx _ IH]; simpl; lra.
Qed.

Lemma Qmean_nonneg l :
  l <> [] -> Forall (fun x => 0 <= x) l -> nonneg (Qmean l).
Proof.
  intros Hne Hl. destruct l as [|x l]; [congruence|].
  cbn [Qmean nonneg].
  apply Qsum_nonneg in Hl.
  apply Qle_shift_div_l.
  - change 0 with (inject_Z 0). rewrite <- Zlt_Qlt. simpl length. lia.
  - rewrite Qmult_0_l. exact Hl.
Qed.

Lemma Forall_zip_with {A B C} (P : C -> Prop) (f : A -> B -> C) l l' :
  (forall a b, In a l -> In b l' -> P (f a b)) ->
  Forall P (zip_with f l l').
Proof.
  revert l'; induction l as [|a l IH]; intros [|b l'] H; simpl; auto.
  constructor.
  - apply H; now left.
  - apply IH. intros; apply H; now right.
Qed.

Lemma kernel_term_nonneg b f p :
  0 <= f -> 0 <= kernel_term (flag_weight b) f p.
Proof.
  intros Hf. unfold kernel_term.
  assert (Hsq : forall x, 0 <= f * (x * x)).
  { intros x. apply Qmult_le_0_compat; [assumption|nra]. }
  destruct b; cbn [flag_weight].
  - setoid_replace (1 * f * ((p + - (1)) * (p + - (1)))
                    + (1 + - (1)) * f * ((p + 1) * (p + 1)))
      with (f * ((p + - (1)) * (p + - (1)))) by ring.
    apply Hsq.
  - setoid_replace (0 * f * ((p + - (1)) * (p + - (1)))
                    + (1 + - 0) * f * ((p + 1) * (p + 1)))
      with (f * ((p + 1) * (p + 1))) by ring.
    apply Hsq.
Qed.

End RaganValue.


Lemma discriminator_loss_finite sl pl sg pg v r g :
  tf_constant v = Returned (Fin r) ->
  let g1 := advance g (numel sl) in
  discriminator_loss {| local_ := of_Q sl pl; global_ := of_Q sg pg |} v g
  = Returned
      (fadd (Qmean (zip_with (kernel_term r) (soft_factors g (numel sl)) pl))
            (Qmean (zip_with (kernel_term r) (soft_factors g1 (numel sg)) pg)),
       advance g1 (numel sg)).
Proof.
  intros Hv g1. unfold discriminator_loss. cbn [local_ global_].
  rewrite (bind_returned _ _ _ _ _ (ragan_ls_loss_finite sl pl v r g Hv)).
  rewrite (bind_returned _ _ _ _ _ (ragan_ls_loss_finite sg pg v r g1 Hv)).
  reflexivity.
Qed.

(** C6: [discriminator_loss] on the pair of [L] and [G] is the value of
    [ragan_ls_loss] on [L] plus the value of [ragan_ls_loss] on [G], the
    first call drawing from the generator as it is found and the second
    from the generator as the first leaves it; each term has weight one
    and depends on its own scale only. *)
Theorem C6_discriminator_loss_sum L G b g :
  let g1 := advance g (numel (shape L)) in
  let g2 := advance g1 (numel (shape G)) in
  exists l1 l2,
    ragan_ls_loss L (PyBool b) g = Returned (l1, g1)
    /\ ragan_ls_loss G (PyBool b) g1 = Returned (l2, g2)
    /\ discriminator_loss {| local_ := L; global_ := G |} (PyBool b) g
       = Returned (fadd l1 l2, g2).
Proof.
  intros g1 g2.
  destruct (ragan_ls_loss_returns L (PyBool b) _ g eq_refl) as [l1 H1].
  destruct (ragan_ls_loss_returns G (PyBool b) _ g1 eq_refl) as [l2 H2].
  exists l1, l2. repeat split; try assumption.
  unfold discriminator_loss. cbn [local_ global_].
  rewrite (bind_returned _ _ _ _ _ H1), (bind_returned _ _ _ _ _ H2).
  reflexivity.
Qed.

(* ================================================================== *)
(** ** The feature reconstruction loss *)

Section FeatureLoss.




Lemma per_sample_count_zero t :
  wf t -> per_sample_count t = 0%nat -> data t = [].
Proof.
  unfold wf, per_sample_count. intros Hwf H0.
  destruct (shape t) as [|b sh]; simpl in *; [discriminate|].
  rewrite H0, Nat.mul_0_r in Hwf.
  destruct (data t); [reflexivity|discriminate].
Qed.

Lemma fdiv_count x k :
  k <> 0%nat -> fdiv (Fin x) (of_nat k) = Fin (x / inject_Z (Z.of_nat k)).
Proof.
  intros Hk. unfold fdiv, of_nat. rewrite Qzero_of_nat.
  destruct k; [congruence|reflexivity].
Qed.

End FeatureLoss.



(** C8, as the code has it: when the feature network's output has no
    element per sample (the product of its non-batch dimensions is zero),
    [feature_reconstruction_loss] raises nothing and returns NaN. *)
Theorem C8_degenerate_features_nan gen sharp net :
  wf (net gen) -> wf (net sharp) ->
  shape (net gen) = shape (net sharp) ->
  per_sample_count (net gen) = 0%nat ->
  feature_reconstruction_loss gen sharp net = Returned NaN.
Proof.
  intros Hg Hs Hsh Hk.
  unfold feature_reconstruction_loss, tf_subtract.
  rewrite elementwise_same_shape by assumption. cbn [obind].
  rewrite (per_sample_count_zero _ Hg Hk). reflexivity.
Qed.

Lemma C8_degenerate_features_nan_witness :
  feature_reconstruction_loss sample_image sample_image degenerate_network
  = Returned NaN.
Proof.
  apply (C8_degenerate_features_nan sample_image sample_image degenerate_network);
    reflexivity.
Defined.

(** C8 fails as stated: on a feature network with zero elements per
    sample the call does not raise; it returns NaN. *)
Lemma C8_counterexample :
  per_sample_count (degenerate_network sample_image) = 0%nat
  /\ feature_reconstruction_loss sample_image sample_image degenerate_network
     = Returned NaN
  /\ ~ (exists e,
          feature_reconstruction_loss sample_image sample_image degenerate_network
          = Raised e).
Proof.
  split; [reflexivity|]. split; [reflexivity|].
  intros [e He]. discriminate He.
Qed.

(* ================================================================== *)
(** ** The pixel loss: a mean of row means is the mean of all elements *)

Section RowMeans.








Lemma inject_nat_pos n : (0 < n)%nat -> 0 < inject_Z (Z.of_nat n).
Proof.
  intros H. change 0 with (inject_Z 0). rewrite <- Zlt_Qlt. lia.
Qed.


Lemma zip_with_swap {A B C} (f : A -> B -> C) l l' :
  zip_with f l l' = zip_with (fun b a => f a b) l' l.
Proof.
  revert l'; induction l as [|a l IH]; intros [|b l']; simpl; auto.
  now rewrite IH.
Qed.


End RowMeans.



(* ================================================================== *)
(** ** Pixel normalisation *)

Section Pixels.

Lemma inject_Z_bounds p :
  (0 <= p <= 255)%Z -> 0 <= inject_Z p /\ inject_Z p <= 255.
Proof.
  intros [Hl Hu]. split.
  - change 0 with (inject_Z 0). now rewrite <- Zle_Qle.
  - change 255 with (inject_Z 255). now rewrite <- Zle_Qle.
Qed.

Lemma cast_uint8_ext a b : a == b -> cast_uint8 a = cast_uint8 b.
Proof.
  intros H. unfold cast_uint8.
  assert (Hf : Qfloor a = Qfloor b) by now apply Qfloor_comp.
  assert (Hn : Qfloor (- a) = Qfloor (- b))
    by (apply Qfloor_comp; now rewrite H).
  destruct (Qlt_le_dec a 0), (Qlt_le_dec b 0); try lra;
    cbv zeta; now rewrite ?Hf, ?Hn.
Qed.

Lemma cast_uint8_inject p :
  (0 <= p <= 255)%Z -> cast_uint8 (inject_Z p) = Some p.
Proof.
  intros Hp. unfold cast_uint8.
  destruct (inject_Z_bounds p Hp) as [H0 _].
  destruct (Qlt_le_dec (inject_Z p) 0) as [Hneg|_]; [lra|].
  rewrite Qfloor_Z.
  destruct Hp as [Hl Hu].
  apply Z.leb_le in Hl, Hu. now rewrite Hl, Hu.
Qed.

End Pixels.

(** C10: the denormalisation of [save_image] inverts the normalisation of
    [transform] on every rational pixel value, and the normalisation sends
    every [uint8] pixel value into [-127/128, 1], a part of [-1, 1]. *)
Theorem C10_denormalize_normalize :
  (forall x, denormalize (normalize x) == x)
  /\ (forall p, (0 <= p <= 255)%Z ->
        - (127 # 128) <= normalize (inject_Z p) <= 1
        /\ -1 <= normalize (inject_Z p) <= 1)
  /\ normalize (inject_Z 0) == - (127 # 128)
  /\ normalize (inject_Z 255) == 1.
Proof.
  split; [|split; [|split]].
  - intros x. unfold denormalize, normalize. field.
  - intros p Hp. destruct (inject_Z_bounds p Hp) as [H0 H255].
    unfold normalize.
    assert (E : (inject_Z p - 127) / 128 == (1 # 128) * inject_Z p - (127 # 128))
      by field.
    rewrite E. lra.
  - reflexivity.
  - reflexivity.
Qed.

(** The round trip on stored pixels: normalising a [uint8] image and
    saving it again writes the pixels it started from. *)
Lemma save_image_transform pixels :
  Forall (fun p => (0 <= p <= 255)%Z) pixels ->
  Forall2 (fun p o => o = Some p) pixels
          (save_image_pixels (transform_pixels pixels)).
Proof.
  induction 1 as [|p l Hp _ IH]; simpl; constructor; auto.
  rewrite (cast_uint8_ext _ (inject_Z p)).
  - now apply cast_uint8_inject.
  - unfold denormalize, normalize. field.
Qed.

(* ================================================================== *)
(** ** The relativistic loss on arbitrary predictions *)

Section RaganGeneral.

Lemma ragan_ls_loss_eval preds v r g :
  tf_constant v = Returned r ->
  ragan_ls_loss preds v g
  = Returned (mean_list (zip_with (float_term r)
                           (map Fin (soft_factors g (numel (shape preds))))
                           (data preds)),
              advance g (numel (shape preds))).
Proof.
  intros Hv. unfold ragan_ls_loss. rewrite Hv, bind_lift.
  rewrite (bind_returned _ _ _ _ _ (soft_label_factor_eval _ _)).
  unfold tf_multiply, tf_add, tf_square.
  rewrite !elementwise_same_shape, !bind_lift by reflexivity.
  rewrite elementwise_same_shape, !bind_lift by reflexivity.
  unfold ret. do 2 f_equal.
  unfold reduce_mean, mean_list. cbn [shape data tf_map of_Q].
  rewrite !map_map, !zip_with_map_l, !zip_with_map_r, zip_with_same.
  reflexivity.
Qed.

Lemma fsum_NaN l : In NaN l -> fsum l = NaN.
Proof.
  induction l as [|a l IH]; [contradiction|].
  intros [->|H]; [reflexivity|].
  change (fadd a (fsum l) = NaN). rewrite (IH H). now destruct a.
Qed.

Lemma mean_list_NaN l : In NaN l -> mean_list l = NaN.
Proof. intros H. unfold mean_list. now rewrite (fsum_NaN _ H). Qed.

Lemma zip_with_In_r {A B C} (f : A -> B -> C) l l' y :
  length l = length l' -> In y l' ->
  exists x, In x l /\ In (f x y) (zip_with f l l').
Proof.
  revert l'; induction l as [|a l IH]; intros [|b l'] Hlen Hin;
    simpl in *; try contradiction; try discriminate.
  destruct Hin as [->|Hin].
  - exists a. auto.
  - destruct (IH l' ltac:(lia) Hin) as (x & Hx & Hz). exists x. auto.
Qed.

Lemma float_term_not_finite b f x :
  ~ is_finite x -> float_term (Fin (flag_weight b)) (Fin f) x = NaN.
Proof.
  intros Hx. destruct x as [q|s|]; [elim Hx; exact I| |].
  - unfold float_term.
    destruct b; cbn [flag_weight fsub fadd fopp fsquare fmul];
      rewrite ?xorb_nilpotent.
    + assert (E : Qzero ((1 + - (1)) * f) = true) by (apply Qzero_true; ring).
      rewrite E. now destruct (Qzero (1 * f)).
    + assert (E : Qzero (0 * f) = true) by (apply Qzero_true; ring).
      now rewrite E.
  - now destruct b.
Qed.

End RaganGeneral.

(** X1: on a prediction tensor without elements [ragan_ls_loss] raises
    nothing: for either flag it returns NaN (the mean of no element) and
    leaves the random generator where it found it. *)
Theorem X1_ragan_ls_loss_empty preds b g :
  wf preds -> data preds = [] ->
  exists g',
    ragan_ls_loss preds (PyBool b) g = Returned (NaN, g')
    /\ cursor g' = cursor g /\ tape g' = tape g.
Proof.
  intros Hwf He. unfold wf in Hwf. rewrite He in Hwf. simpl in Hwf.
  exists (advance g (numel (shape preds))). split.
  - rewrite (ragan_ls_loss_eval preds (PyBool b) _ g eq_refl).
    rewrite He, <- Hwf. reflexivity.
  - rewrite <- Hwf. cbn [advance cursor tape]. split; [lia|reflexivity].
Qed.

Lemma X1_ragan_ls_loss_empty_witness :
  exists g',
    ragan_ls_loss {| shape := [3; 0]%nat; data := [] |} (PyBool true) sample_rng
    = Returned (NaN, g') /\ cursor g' = 0%nat.
Proof.
  destruct (X1_ragan_ls_loss_empty {| shape := [3; 0]%nat; data := [] |} true
              sample_rng eq_refl eq_refl) as (g' & H & Hc & _).
  exists g'. split; assumption.
Defined.

(** X2: one prediction that is infinite or NaN makes the whole loss NaN,
    for either flag and whatever the noise: the term of the branch that
    the flag switches off is zero times infinity. *)
Theorem X2_ragan_ls_loss_not_finite preds b g x :
  wf preds -> In x (data preds) -> ~ is_finite x ->
  ragan_ls_loss preds (PyBool b) g
  = Returned (NaN, advance g (numel (shape preds))).
Proof.
  intros Hwf Hin Hx.
  assert (Hv : tf_constant (PyBool b) = Returned (Fin (flag_weight b)))
    by now destruct b.
  rewrite (ragan_ls_loss_eval preds (PyBool b) _ g Hv). do 2 f_equal.
  apply mean_list_NaN.
  destruct (zip_with_In_r (float_term (Fin (flag_weight b)))
              (map Fin (soft_factors g (numel (shape preds)))) (data preds) x)
    as (f & Hf & Hz); [|assumption|].
  - rewrite length_map, soft_factors_length. symmetry. exact Hwf.
  - apply in_map_iff in Hf. destruct Hf as (q & <- & _).
    now rewrite (float_term_not_finite b q x Hx) in Hz.
Qed.

Lemma X2_ragan_ls_loss_not_finite_witness :
  ragan_ls_loss {| shape := [2]%nat; data := [Fin 1; Inf false] |}
                (PyBool true) sample_rng
  = Returned (NaN, advance sample_rng 2).
Proof.
  apply (X2_ragan_ls_loss_not_finite
           {| shape := [2]%nat; data := [Fin 1; Inf false] |} true sample_rng
           (Inf false)).
  - reflexivity.
  - right. left. reflexivity.
  - intros H. exact H.
Defined.
(* ================================================================== *)
(** ** Size of the relativistic loss *)

Section RaganSize.

Lemma kernel_term_target b f p :
  kernel_term (flag_weight b) f p == f * (p - target b) ^ 2.
Proof. destruct b; unfold kernel_term, target; simpl; ring. Qed.

Lemma square_nonneg (x : Q) : 0 <= x ^ 2.
Proof. simpl. nra. Qed.

Lemma square_zero (x : Q) : x ^ 2 == 0 <-> x == 0.
Proof.
  simpl. split; intros H.
  - now destruct (Qmult_integral _ _ H).
  - rewrite H. ring.
Qed.

Lemma soft_factors_in_range g n f :
  rng_valid g -> In f (soft_factors g n) -> 0.9 <= f /\ f <= 1.1.
Proof.
  intros Hg Hin. unfold soft_factors in Hin.
  apply in_map_iff in Hin. destruct Hin as (i & <- & _).
  unfold noise_at. destruct (Hg (draw_index g i)). lra.
Qed.

Lemma rng_valid_advance g n : rng_valid g -> rng_valid (advance g n).
Proof. intros H i. apply H. Qed.

Lemma Qsum_nil : Qsum [] = 0.
Proof. reflexivity. Qed.

Lemma Qsum_cons x l : Qsum (x :: l) = x + Qsum l.
Proof. reflexivity. Qed.

Lemma plain_terms_cons b p ps :
  plain_terms b (p :: ps) = (p - target b) ^ 2 :: plain_terms b ps.
Proof. reflexivity. Qed.

(** The sum of the loss terms against the sum of the noise-free terms. *)
Lemma Qsum_terms_bounds b fs ps :
  length fs = length ps ->
  (forall f, In f fs -> 0.9 <= f /\ f <= 1.1) ->
  0.9 * Qsum (plain_terms b ps)
  <= Qsum (zip_with (kernel_term (flag_weight b)) fs ps)
  /\ Qsum (zip_with (kernel_term (flag_weight b)) fs ps)
     <= 1.1 * Qsum (plain_terms b ps).
Proof.
  revert ps; induction fs as [|f fs IH]; intros [|p ps] Hlen Hf;
    try discriminate.
  - cbn [zip_with plain_terms map]. rewrite Qsum_nil. lra.
  - destruct (IH ps ltac:(simpl in Hlen; lia)
                (fun x Hx => Hf x (or_intror Hx))) as [Hl Hu].
    destruct (Hf f (or_introl eq_refl)) as [Hf1 Hf2].
    cbn [zip_with]. rewrite plain_terms_cons, !Qsum_cons.
    rewrite (kernel_term_target b f p).
    pose proof (square_nonneg (p - target b)) as Hsq.
    set (q := (p - target b) ^ 2) in *.
    set (S1 := Qsum (plain_terms b ps)) in *.
    set (S2 := Qsum (zip_with (kernel_term (flag_weight b)) fs ps)) in *.
    split; nra.
Qed.

Lemma plain_terms_length b ps : length (plain_terms b ps) = length ps.
Proof. apply length_map. Qed.

Lemma Qsum_plain_terms_nonneg b ps : 0 <= Qsum (plain_terms b ps).
Proof.
  induction ps as [|p ps IH].
  - cbn [plain_terms map]. rewrite Qsum_nil. lra.
  - rewrite plain_terms_cons, Qsum_cons.
    pose proof (square_nonneg (p - target b)). lra.
Qed.

Lemma Qsum_terms_zero b fs ps :
  length fs = length ps ->
  (forall f, In f fs -> 0.9 <= f /\ f <= 1.1) ->
  Qsum (zip_with (kernel_term (flag_weight b)) fs ps) == 0
  <-> Forall (fun p => p == target b) ps.
Proof.
  revert ps; induction fs as [|f fs IH]; intros [|p ps] Hlen Hf;
    try discriminate.
  - split; [constructor|reflexivity].
  - assert (Hlen' : length fs = length ps) by (simpl in Hlen; lia).
    specialize (IH ps Hlen' (fun x Hx => Hf x (or_intror Hx))).
    destruct (Qsum_terms_bounds b fs ps Hlen'
                (fun x Hx => Hf x (or_intror Hx))) as [Hl _].
    destruct (Hf f (or_introl eq_refl)) as [Hf1 Hf2].
    pose proof (Qsum_plain_terms_nonneg b ps) as Hpl.
    cbn [zip_with]. rewrite Qsum_cons.
    rewrite (kernel_term_target b f p).
    pose proof (square_nonneg (p - target b)) as Hsq.
    pose proof (square_zero (p - target b)) as Hz.
    set (q := (p - target b) ^ 2) in *.
    set (S1 := Qsum (plain_terms b ps)) in *.
    set (S2 := Qsum (zip_with (kernel_term (flag_weight b)) fs ps)) in *.
    split.
    + intros H. assert (Hq : q == 0) by nra.
      constructor; [apply Hz in Hq; lra|]. apply IH. nra.
    + intros H. inversion H as [|? ? Hp Hps]; subst.
      apply IH in Hps. assert (Hq : q == 0) by (apply Hz; lra).
      rewrite Hq, Hps. ring.
Qed.

Lemma count_pos {A} (l : list A) :
  l <> [] -> 0 < inject_Z (Z.of_nat (length l)).
Proof.
  intros H. apply inject_nat_pos. destruct l; [congruence|simpl; lia].
Qed.

Lemma Qmean_nonempty l :
  l <> [] -> Qmean l = Fin (Qsum l / inject_Z (Z.of_nat (length l))).
Proof. destruct l; [congruence|reflexivity]. Qed.

Lemma zip_with_nonempty {A B C} (f : A -> B -> C) l l' :
  length l = length l' -> l' <> [] -> zip_with f l l' <> [].
Proof.
  destruct l, l'; simpl; try congruence; discriminate.
Qed.

Lemma ragan_mean_nonneg b g n ps :
  rng_valid g -> length ps = n -> ps <> [] ->
  exists q,
    Qmean (zip_with (kernel_term (flag_weight b)) (soft_factors g n) ps) = Fin q
    /\ 0 <= q.
Proof.
  intros Hg Hn Hne.
  assert (Hlen : length (soft_factors g n) = length ps)
    by now rewrite soft_factors_length.
  pose proof (Qmean_nonneg _ (zip_with_nonempty
                (kernel_term (flag_weight b)) _ ps Hlen Hne)) as Hnn.
  rewrite (Qmean_nonempty _ (zip_with_nonempty _ _ ps Hlen Hne)) in *.
  eexists. split; [reflexivity|]. apply Hnn.
  apply Forall_zip_with. intros f p Hf _. apply kernel_term_nonneg.
  destruct (soft_factors_in_range g _ f Hg Hf). lra.
Qed.

End RaganSize.

(* ================================================================== *)
(** ** Size and symmetry of the feature reconstruction loss *)

Section FeatureSize.

Lemma squared_error_kernel x y : (x + - y) * (x + - y) == squared_error x y.
Proof. unfold squared_error. simpl. ring. Qed.

Lemma squared_error_sym x y : squared_error x y == squared_error y x.
Proof. unfold squared_error. simpl. ring. Qed.

Lemma squared_error_nonneg x y : 0 <= squared_error x y.
Proof. apply square_nonneg. Qed.


Lemma map_of_zip_with {A B C D} (h : C -> D) (f : A -> B -> C) l l' :
  map h (zip_with f l l') = zip_with (fun a b => h (f a b)) l l'.
Proof.
  revert l'; induction l as [|a l IH]; intros [|b l']; simpl; auto.
  now rewrite IH.
Qed.

Lemma Qsum_map_div (d : Q) l : Qsum (map (fun x => x / d) l) == Qsum l / d.
Proof.
  induction l as [|x l IH].
  - cbn [map]. rewrite Qsum_nil. unfold Qdiv. ring.
  - cbn [map]. rewrite !Qsum_cons, IH. unfold Qdiv. ring.
Qed.

Lemma Qsum_squared_error_nonneg a b : 0 <= Qsum (zip_with squared_error a b).
Proof.
  apply Qsum_nonneg, Forall_zip_with. intros; apply squared_error_nonneg.
Qed.


(** The value of the loss on finite features with at least one element
    per sample. *)
Lemma feature_reconstruction_loss_finite gen sharp net sh a b :
  net gen = of_Q sh a -> net sharp = of_Q sh b ->
  numel (tl sh) <> 0%nat ->
  feature_reconstruction_loss gen sharp net
  = Returned (Qmean (map (fun d => d / inject_Z (Z.of_nat (numel (tl sh))))
                         (zip_with (fun x y => (x + - y) * (x + - y)) a b))).
Proof.
  intros Hg Hs Hk. unfold feature_reconstruction_loss, tf_subtract.
  rewrite Hg, Hs. rewrite elementwise_same_shape by reflexivity.
  cbn [obind]. f_equal.
  unfold reduce_mean, tf_divide, tf_square, per_sample_count.
  cbn [data shape tf_map of_Q].
  rewrite (zip_with_Fin fsub Qminus) by reflexivity.
  rewrite (map_Fin fsquare (fun x => x * x)) by reflexivity.
  rewrite (map_Fin _ (fun x => x / inject_Z (Z.of_nat (numel (tl sh)))))
    by (intros x; now apply fdiv_count).
  change (fdiv (fsum (map Fin ?l)) (of_nat (length (map Fin ?l))))
    with (mean_list (map Fin l)).
  rewrite mean_list_Fin, map_of_zip_with. reflexivity.
Qed.

Lemma numel_tl_pos sh (a : list Q) :
  length a = numel sh -> a <> [] -> numel (tl sh) <> 0%nat.
Proof.
  intros Hlen Hne H0. destruct sh as [|d sh]; simpl in *; [discriminate|].
  rewrite H0, Nat.mul_0_r in Hlen. destruct a; [congruence|discriminate].
Qed.

(** The loss as a rational: the sum of the squared feature differences
    over the per-sample count and over the number of elements. *)
Lemma feature_reconstruction_loss_value gen sharp net sh a b :
  net gen = of_Q sh a -> net sharp = of_Q sh b ->
  length a = numel sh -> length b = numel sh -> a <> [] ->
  exists v,
    feature_reconstruction_loss gen sharp net = Returned (Fin v)
    /\ v == Qsum (zip_with squared_error a b)
            / inject_Z (Z.of_nat (numel (tl sh)))
            / inject_Z (Z.of_nat (length a)).
Proof.
  intros Hg Hs Ha Hb Hne.
  pose proof (numel_tl_pos sh a Ha Hne) as Hk.
  rewrite (feature_reconstruction_loss_finite gen sharp net sh a b Hg Hs Hk).
  assert (Hzip : length (zip_with (fun x y => (x + - y) * (x + - y)) a b)
                 = length a)
    by (rewrite zip_with_length, Ha, Hb; apply Nat.min_id).
  rewrite Qmean_nonempty.
  - eexists. split; [reflexivity|].
    rewrite length_map, Hzip, Qsum_map_div.
    rewrite (Qsum_ext _ (zip_with squared_error a b))
      by (apply zip_with_ext; intros; apply squared_error_kernel).
    reflexivity.
  - intros E. apply (f_equal (@length Q)) in E.
    rewrite length_map, Hzip in E. destruct a; [congruence|discriminate].
Qed.

Lemma feature_reconstruction_loss_nonneg gen sharp net sh a b :
  net gen = of_Q sh a -> net sharp = of_Q sh b ->
  length a = numel sh -> length b = numel sh -> a <> [] ->
  exists v,
    feature_reconstruction_loss gen sharp net = Returned (Fin v) /\ 0 <= v.
Proof.
  intros Hg Hs Ha Hb Hne.
  destruct (feature_reconstruction_loss_value gen sharp net sh a b
              Hg Hs Ha Hb Hne) as (v & Hv & Hval).
  exists v. split; [exact Hv|]. rewrite Hval.
  pose proof (inject_nat_pos (numel (tl sh))
                ltac:(pose proof (numel_tl_pos sh a Ha Hne); lia)) as Hk.
  apply Qle_shift_div_l; [exact (count_pos a Hne)|].
  rewrite Qmult_0_l. apply Qle_shift_div_l; [exact Hk|].
  rewrite Qmult_0_l. apply Qsum_squared_error_nonneg.
Qed.

End FeatureSize.

(** X7: the feature reconstruction loss is symmetric: on finite features
    of one shape, exchanging the generated and the sharp batch leaves the
    returned value unchanged. *)
Theorem X7_feature_loss_symmetric gen sharp net sh a b :
  net gen = of_Q sh a -> net sharp = of_Q sh b ->
  length a = numel sh -> length b = numel sh ->
  exists v v',
    feature_reconstruction_loss gen sharp net = Returned v
    /\ feature_reconstruction_loss sharp gen net = Returned v'
    /\ v ≈ v'.
Proof.
  intros Hg Hs Ha Hb.
  destruct a as [|x a].
  - destruct b as [|y b]; [|simpl in Ha, Hb; lia].
    exists NaN, NaN. unfold feature_reconstruction_loss, tf_subtract.
    rewrite Hg, Hs. rewrite !elementwise_same_shape by reflexivity.
    repeat split.
  - assert (Hne : x :: a <> []) by discriminate.
    assert (Hneb : b <> [])
      by (destruct b; [simpl in Ha, Hb; lia|discriminate]).
    destruct (feature_reconstruction_loss_value gen sharp net sh _ b
                Hg Hs Ha Hb Hne) as (v & Hv & Hval).
    destruct (feature_reconstruction_loss_value sharp gen net sh b _
                Hs Hg Hb Ha Hneb) as (v' & Hv' & Hval').
    exists (Fin v), (Fin v'). split; [exact Hv|]. split; [exact Hv'|].
    cbn [feq]. rewrite Hval, Hval'.
    assert (E : Qsum (zip_with squared_error b (x :: a))
                == Qsum (zip_with squared_error (x :: a) b)).
    { rewrite (zip_with_swap squared_error b).
      apply Qsum_ext, zip_with_ext. intros; apply squared_error_sym. }
    rewrite E, Ha, Hb. reflexivity.
Qed.

Lemma X7_feature_loss_symmetric_witness :
  exists v v',
    feature_reconstruction_loss
      (of_Q [2; 1; 1; 3]%nat sample_gen) (of_Q [2; 1; 1; 3]%nat sample_sharp)
      (tf_map (fmul (Fin 2))) = Returned v
    /\ feature_reconstruction_loss
         (of_Q [2; 1; 1; 3]%nat sample_sharp) (of_Q [2; 1; 1; 3]%nat sample_gen)
         (tf_map (fmul (Fin 2))) = Returned v'
    /\ v ≈ v'.
Proof.
  apply (X7_feature_loss_symmetric
           (of_Q [2; 1; 1; 3]%nat sample_gen)
           (of_Q [2; 1; 1; 3]%nat sample_sharp)
           (tf_map (fmul (Fin 2))) [2; 1; 1; 3]%nat
           (map (Qmult 2) sample_gen) (map (Qmult 2) sample_sharp));
    reflexivity.
Defined.

(* ================================================================== *)
(** ** The composite loss of the generator *)

Section GeneratorSize.


Lemma pixel_loss_nonneg ss gs :
  length ss = length gs -> ss <> [] ->
  exists m, pixel_loss ss gs = Fin m /\ 0 <= m.
Proof.
  intros Hlen Hne. unfold pixel_loss.
  assert (Hz : zip_with squared_error ss gs <> []).
  { destruct ss, gs; simpl in *; try congruence; discriminate. }
  pose proof (Qmean_nonneg _ Hz) as Hnn.
  rewrite (Qmean_nonempty _ Hz) in *. eexists. split; [reflexivity|].
  apply Hnn, Forall_zip_with. intros; apply squared_error_nonneg.
Qed.




End GeneratorSize.



(* ================================================================== *)
(** ** The pixels [save_image] writes *)

Section SavedPixels.





End SavedPixels.

(** X12: saving what [transform] normalised writes the pixels it started
    from: on every [uint8] image the conversion of [save_image] applied
    to the normalised pixels returns each stored pixel unchanged. *)
Theorem X12_save_image_inverts_transform pixels :
  Forall (fun p => (0 <= p <= 255)%Z) pixels ->
  save_image_pixels (transform_pixels pixels) = map Some pixels.
Proof.
  induction 1 as [|p l Hp _ IH]; [reflexivity|].
  change (cast_uint8 (denormalize (normalize (inject_Z p)))
          :: save_image_pixels (transform_pixels l) = Some p :: map Some l).
  rewrite IH. f_equal.
  rewrite (cast_uint8_ext _ (inject_Z p)).
  - now apply cast_uint8_inject.
  - unfold denormalize, normalize. field.
Qed.

Lemma X12_save_image_inverts_transform_witness :
  save_image_pixels (transform_pixels [0; 127; 128; 255]%Z)
  = [Some 0; Some 127; Some 128; Some 255]%Z.
Proof.
  apply (X12_save_image_inverts_transform [0; 127; 128; 255]%Z).
  repeat constructor; lia.
Defined.

(* ================================================================== *)
(** ** The files the callback writes *)

Section CallbackFiles.

Import Callback.

Lemma string_length_append (a b : string) :
  String.length (a ++ b) = (String.length a + String.length b)%nat.
Proof. induction a as [|c a IH]; simpl; [reflexivity|now rewrite IH]. Qed.

Lemma append_inj_l (p a b : string) : (p ++ a = p ++ b)%string -> a = b.
Proof.
  induction p as [|c p IH]; simpl; intros H; [exact H|].
  injection H as H. now apply IH.
Qed.

Lemma append_inj_r (s a b : string) : (a ++ s = b ++ s)%string -> a = b.
Proof.
  revert b; induction a as [|c a IH]; intros [|c' b] H; simpl in H.
  - reflexivity.
  - apply (f_equal String.length) in H. simpl in H.
    rewrite string_length_append in H. lia.
  - apply (f_equal String.length) in H. simpl in H.
    rewrite string_length_append in H. lia.
  - injection H as -> H. f_equal. now apply IH.
Qed.

Lemma jpg_name_inj f a b : jpg_name f a = jpg_name f b -> a = b.
Proof.
  unfold jpg_name. intros H. apply append_inj_l in H.
  simpl in H. injection H as H. now apply append_inj_r in H.
Qed.

Lemma to_int_parses z :
  NilZero.int_of_string (NilZero.string_of_int (Z.to_int z))
  = Some (Z.to_int z).
Proof.
  apply NilZero.isi; destruct z; simpl; try discriminate;
    intros H; injection H as H; now apply Unsigned.to_uint_nonnil in H.
Qed.

Lemma format_number_inj z z' :
  format_label (Number z) = format_label (Number z') -> z = z'.
Proof.
  cbn [format_label]. intros H.
  pose proof (to_int_parses z) as P. rewrite H, to_int_parses in P.
  injection P as P. rewrite <- (DecimalZ.of_to z), <- (DecimalZ.of_to z').
  now rewrite P.
Qed.

Lemma format_number_not_word z s :
  NilZero.int_of_string s = None -> format_label (Number z) <> s.
Proof.
  cbn [format_label]. intros Hs E. pose proof (to_int_parses z) as P.
  rewrite E, Hs in P. discriminate.
Qed.

Lemma NoDup_map_inj {A B} (f : A -> B) l :
  (forall x y, f x = f y -> x = y) -> NoDup l -> NoDup (map f l).
Proof.
  intros Hinj. induction 1 as [|x l Hx _ IH]; simpl; constructor; auto.
  intros Hin. apply in_map_iff in Hin. destruct Hin as (y & Hy & Hin).
  apply Hinj in Hy. now subst.
Qed.

Variable compress : list nat -> list (option Z) -> option string.
Variable generator : tensor -> tensor.

Lemma save_image_inv self image name d d' :
  save_image compress self image name d = Ok d' ->
  exists f encoded,
    folder self = Some f
    /\ d' = d ++ [(jpg_name f (format_label name), encoded)].
Proof.
  unfold save_image. destruct (encode_jpeg _ _) as [encoded|e]; [|discriminate].
  destruct (folder self) as [f|]; [|discriminate].
  intros H. injection H as <-. now exists f, encoded.
Qed.

Lemma run_epochs_names self f first n d d' :
  folder self = Some f ->
  run_epochs compress generator self first n d = Ok d' ->
  map fst d'
  = map fst d
    ++ map (fun i => jpg_name f (format_label (Number (first + 1 + Z.of_nat i))))
           (seq 0 n).
Proof.
  intros Hf. revert first d; induction n as [|n IH]; intros first d H.
  - injection H as <-. cbn [seq map]. now rewrite app_nil_r.
  - cbn [run_epochs] in H.
    destruct (on_epoch_end compress generator self first d) as [d1|e] eqn:E;
      [|discriminate].
    unfold on_epoch_end in E. apply save_image_inv in E.
    destruct E as (f' & enc & Hf' & ->). rewrite Hf in Hf'. injection Hf' as <-.
    rewrite (IH _ _ H), map_app, <- app_assoc. f_equal.
    cbn [seq map fst app]. rewrite Z.add_0_r. f_equal.
    rewrite <- seq_shift, map_map. apply map_ext. intros i.
    do 3 f_equal. lia.
Qed.

Lemma on_train_begin_inv self now d self' d' :
  on_train_begin compress self now d = Ok (self', d') ->
  folder self' = Some (jpg_name (path self) now)
  /\ map fst d'
     = map fst d ++ [jpg_name (jpg_name (path self) now) "sharp";
                     jpg_name (jpg_name (path self) now) "blur"].
Proof.
  unfold on_train_begin. cbv zeta.
  set (s := {| path := path self; sharp_image := sharp_image self;
               blur_image := blur_image self;
               folder := Some (jpg_name (path self) now) |}).
  destruct (save_image compress s (sharp_image s) (Label "sharp") d)
    as [d1|] eqn:E1; [|discriminate].
  destruct (save_image compress s (blur_image s) (Label "blur") d1)
    as [d2|] eqn:E2; [|discriminate].
  intros H. injection H as <- <-.
  apply save_image_inv in E1, E2.
  destruct E1 as (f1 & enc1 & Hf1 & ->). destruct E2 as (f2 & enc2 & Hf2 & ->).
  unfold s in Hf1, Hf2. cbn [folder] in Hf1, Hf2.
  injection Hf1 as <-. injection Hf2 as <-.
  split; [reflexivity|]. rewrite !map_app, <- app_assoc. reflexivity.
Qed.

Lemma session_names p test_image now n d :
  session compress generator p test_image now n = Ok d ->
  map fst d
  = jpg_name (jpg_name p now) "sharp"
    :: jpg_name (jpg_name p now) "blur"
    :: map (fun i => jpg_name (jpg_name p now)
                       (format_label (Number (1 + Z.of_nat i))))
           (seq 0 n).
Proof.
  unfold session. destruct (init p test_image) as [self|e] eqn:Ei; [|discriminate].
  destruct (on_train_begin compress self now []) as [[self' d0]|e] eqn:Eb;
    [|discriminate].
  intros H. apply on_train_begin_inv in Eb. destruct Eb as [Hf Hd0].
  unfold init in Ei. destruct (tf_split2 test_image) as [[sh bl]|]; [|discriminate].
  injection Ei as <-. cbn [path] in *.
  rewrite (run_epochs_names _ _ _ _ _ _ Hf H), Hd0. reflexivity.
Qed.

End CallbackFiles.

(** X13: [save_image] removes every axis of size one, not only the batch
    axis: an image of shape [1, h, w, 3] whose height or width is one
    reaches the JPEG encoder with fewer than three axes, and the call
    raises [InvalidArgumentError] without writing; with a height and a
    width other than one the encoder receives the shape [h, w, 3] and the
    file [<folder>/<name>.jpg] is written. *)
Theorem X13_save_image_squeezes_unit_axes compress self h w px name d :
  let image := {| shape := [1; h; w; 3]%nat; data := px |} in
  (h = 1%nat \/ w = 1%nat ->
   Callback.save_image compress self image name d
   = Callback.Err (Callback.TensorFlowError InvalidArgumentError))
  /\ (forall f encoded,
        h <> 1%nat -> w <> 1%nat ->
        Callback.folder self = Some f ->
        compress [h; w; 3]%nat
          (map Callback.to_uint8
               (map (fun x => fadd (fmul x (Fin 128)) (Fin 127)) px))
        = Some encoded ->
        Callback.save_image compress self image name d
        = Callback.Ok
            (d ++ [(Callback.jpg_name f (Callback.format_label name), encoded)])).
Proof.
  intros image. unfold Callback.save_image, Callback.encode_jpeg.
  cbn [Callback.tf_squeeze Callback.tf_cast_uint8 tf_map image shape data
       Callback.shape8 Callback.pixels filter Nat.eqb negb].
  split.
  - intros [-> | ->].
    + cbn [Nat.eqb negb]. destruct (negb (w =? 1)%nat); reflexivity.
    + cbn [Nat.eqb negb]. destruct (negb (h =? 1)%nat); reflexivity.
  - intros f encoded Hh Hw Hf Hc.
    apply Nat.eqb_neq in Hh, Hw. rewrite Hh, Hw. cbn [negb Nat.eqb orb].
    now rewrite Hc, Hf.
Qed.

Lemma X13_save_image_squeezes_unit_axes_witness :
  Callback.save_image Callback.toy_compress
    {| Callback.path := "out"; Callback.sharp_image := sample_image;
       Callback.blur_image := sample_image; Callback.folder := Some "out/t.jpg"%string |}
    {| shape := [1; 1; 2; 3]%nat; data := map Fin (repeat 0 6) |}
    (Callback.Number 1) []
  = Callback.Err (Callback.TensorFlowError InvalidArgumentError).
Proof.
  apply (X13_save_image_squeezes_unit_axes Callback.toy_compress _ 1 2).
  left. reflexivity.
Defined.

(** X14: a training run never overwrites one of its own images: when a
    session of [n] epochs completes, the files it wrote are, in order,
    [sharp.jpg], [blur.jpg] and [1.jpg] ... [n.jpg] in the folder of the
    session, and these names are pairwise distinct. *)
Theorem X14_session_files_distinct compress generator p test_image now n d :
  Callback.session compress generator p test_image now n = Callback.Ok d ->
  let f := Callback.jpg_name (Callback.jpg_name p now) in
  map fst d
  = f "sharp"%string :: f "blur"%string
    :: map (fun i => f (Callback.format_label
                          (Callback.Number (1 + Z.of_nat i)))) (seq 0 n)
  /\ NoDup (map fst d).
Proof.
  intros H f. pose proof (session_names _ _ _ _ _ _ _ H) as Hn.
  fold f in Hn. split; [exact Hn|]. rewrite Hn.
  assert (Hword : forall s,
            NilZero.int_of_string s = None ->
            ~ In (f s) (map (fun i => f (Callback.format_label
                                 (Callback.Number (1 + Z.of_nat i)))) (seq 0 n))).
  { intros s Hs Hin. apply in_map_iff in Hin. destruct Hin as (i & Hi & _).
    apply jpg_name_inj in Hi. now apply format_number_not_word in Hi. }
  constructor; [|constructor].
  - intros [E|Hin].
    + apply jpg_name_inj in E. discriminate.
    + now apply (Hword "sharp"%string eq_refl).
  - now apply (Hword "blur"%string eq_refl).
  - apply NoDup_map_inj; [|apply seq_NoDup].
    intros i j E. apply jpg_name_inj, format_number_inj in E. lia.
Qed.

Lemma X14_session_files_distinct_witness :
  exists d,
    Callback.session Callback.toy_compress (fun t => t) "out"
      Callback.toy_image "2020-01-01_00-00-00" 3 = Callback.Ok d
    /\ map fst d
       = ["out/2020-01-01_00-00-00.jpg/sharp.jpg";
          "out/2020-01-01_00-00-00.jpg/blur.jpg";
          "out/2020-01-01_00-00-00.jpg/1.jpg";
          "out/2020-01-01_00-00-00.jpg/2.jpg";
          "out/2020-01-01_00-00-00.jpg/3.jpg"]%string
    /\ NoDup (map fst d).
Proof.
  eassert (H : Callback.session Callback.toy_compress (fun t => t) "out"
                 Callback.toy_image "2020-01-01_00-00-00" 3 = Callback.Ok _)
    by (vm_compute; reflexivity).
  destruct (X14_session_files_distinct _ _ _ _ _ _ _ H) as [Hn Hd].
  eexists. split; [exact H|]. split; [exact Hn|exact Hd].
Defined.

(* ================================================================== *)
(** ** [transform]: one window for all images of a batch *)

Section TransformFacts.

Import Dataset.

Lemma forallb_pairs {A} (example : list (list A)) :
  Forall (fun p => length p = 2%nat) example ->
  forallb (fun p => (length p =? 2)%nat) example = true.
Proof.
  induction 1 as [|p l Hp _ IH]; [reflexivity|].
  cbn [forallb]. now rewrite Hp, IH.
Qed.

Lemma even_double n : Nat.even (n + n) = true.
Proof.
  replace (n + n)%nat with (2 * n)%nat by lia. apply Nat.even_spec.
  now exists n.
Qed.

Lemma half_double n : ((n + n) / 2)%nat = n.
Proof.
  replace (n + n)%nat with (n * 2)%nat by lia. now apply Nat.div_mul.
Qed.

Lemma split2_app {A} (l l' : list A) :
  length l = length l' -> split2 (l ++ l') = Returned (l, l').
Proof.
  intros H. unfold split2. rewrite length_app, <- H, even_double, half_double.
  rewrite firstn_app, skipn_app, Nat.sub_diag, firstn_all, skipn_all.
  cbn [firstn skipn app]. now rewrite app_nil_r.
Qed.

Lemma stack_pair_unstacked {A B} (f : A -> B) (example : list (list A)) dflt :
  Forall (fun p => length p = 2%nat) example ->
  stack_pair (map f (map (fun p => nth 0 p dflt) example))
             (map f (map (fun p => nth 1 p dflt) example))
  = Returned (map (map f) example).
Proof.
  intros H. unfold stack_pair. rewrite !length_map, Nat.eqb_refl. f_equal.
  induction H as [|p l Hp _ IH]; [reflexivity|].
  cbn [map zip_with]. rewrite IH. f_equal.
  destruct p as [|a [|b [|? ?]]]; try discriminate. reflexivity.
Qed.

Lemma random_crop_fits {A} h w c d (images : list (list (list (list A)))) crop :
  (crop <= h)%nat -> (crop <= w)%nat -> (3 <= c)%nat ->
  random_crop h w c d images crop
  = Returned (map (crop_image (window_row h crop d) (window_column w crop d)
                              (window_channel c d) crop crop 3) images).
Proof.
  intros Hh Hw Hc. unfold random_crop.
  apply Nat.leb_le in Hh, Hw, Hc. rewrite Hh, Hw, Hc. cbn [andb].
  rewrite Nat.sub_diag. cbn [Nat.add]. rewrite Nat.mod_1_r.
  cbn [skipn]. now rewrite firstn_all.
Qed.

Lemma random_crop_too_large {A} h w c d (images : list (list (list (list A)))) crop :
  (h < crop)%nat \/ (w < crop)%nat \/ (c < 3)%nat ->
  random_crop h w c d images crop = Raised InvalidArgumentError.
Proof.
  intros H. unfold random_crop.
  destruct (crop <=? h)%nat eqn:Eh; [|reflexivity].
  destruct (crop <=? w)%nat eqn:Ew; [|reflexivity].
  destruct (3 <=? c)%nat eqn:Ec; [|reflexivity].
  apply Nat.leb_le in Eh, Ew, Ec. lia.
Qed.

Lemma unstack_pair_ok {A} (example : list (list A)) dflt :
  Forall (fun p => length p = 2%nat) example ->
  unstack_pair example dflt
  = Returned (map (fun p => nth 0 p dflt) example,
              map (fun p => nth 1 p dflt) example).
Proof. intros H. unfold unstack_pair. now rewrite forallb_pairs. Qed.

End TransformFacts.

Lemma transform_fits h w c crop d example :
  Forall (fun p => length p = 2%nat) example ->
  (crop <= h)%nat -> (crop <= w)%nat -> (3 <= c)%nat ->
  Dataset.transform h w c crop d example
  = Returned (map (map (Dataset.crop_and_normalize h w c crop d)) example).
Proof.
  intros Hp Hh Hw Hc. unfold Dataset.transform.
  rewrite (unstack_pair_ok example [] Hp). cbn [obind].
  rewrite (random_crop_fits h w c d _ crop Hh Hw Hc). cbn [obind].
  rewrite !map_app, split2_app by now rewrite !length_map.
  cbn [obind]. rewrite !map_map.
  rewrite <- (stack_pair_unstacked (Dataset.crop_and_normalize h w c crop d)
                example [] Hp).
  now rewrite !map_map.
Qed.

(** X15: [transform] keeps the pairs and cuts one window: when the crop
    fits, the batch it returns is the batch it was given with every
    image, sharp and blurred alike, cropped at the same offsets and then
    normalised; pairs stay together and in order. *)
Theorem X15_transform_keeps_pairs h w c crop d example :
  Forall (fun p => length p = 2%nat) example ->
  (crop <= h)%nat -> (crop <= w)%nat -> (3 <= c)%nat ->
  Dataset.transform h w c crop d example
  = Returned (map (map (Dataset.crop_and_normalize h w c crop d)) example).
Proof.
  intros Hp Hh Hw Hc. now apply transform_fits.
Qed.

Lemma X15_transform_keeps_pairs_witness :
  Dataset.transform 3 3 3 2 Dataset.toy_draws Dataset.toy_example
  = Returned (map (map (Dataset.crop_and_normalize 3 3 3 2 Dataset.toy_draws))
                  Dataset.toy_example).
Proof.
  apply (X15_transform_keeps_pairs 3 3 3 2 Dataset.toy_draws Dataset.toy_example);
    try lia.
  repeat constructor.
Defined.

(** X16: a crop that does not fit is refused: when [IMAGE_SIZE] exceeds
    the height or the width of the stored images, or the images have
    fewer than three channels, [transform] raises [InvalidArgumentError]
    whatever the random draws. *)
Theorem X16_transform_crop_too_large h w c crop d example :
  Forall (fun p => length p = 2%nat) example ->
  (h < crop)%nat \/ (w < crop)%nat \/ (c < 3)%nat ->
  Dataset.transform h w c crop d example = Raised InvalidArgumentError.
Proof.
  intros Hp Hbad. unfold Dataset.transform.
  rewrite (unstack_pair_ok example [] Hp). cbn [obind].
  now rewrite (random_crop_too_large h w c d _ crop Hbad).
Qed.

Lemma X16_transform_crop_too_large_witness :
  Dataset.transform 3 3 3 4 Dataset.toy_draws Dataset.toy_example
  = Raised InvalidArgumentError.
Proof.
  apply (X16_transform_crop_too_large 3 3 3 4 Dataset.toy_draws
           Dataset.toy_example).
  - repeat constructor.
  - left. lia.
Defined.

(* ================================================================== *)
(** ** Shape and range of what [transform] returns *)

Section TransformShape.

Import Dataset.

Lemma Forall_firstn_sub {A} (P : A -> Prop) n l :
  Forall P l -> Forall P (firstn n l).
Proof.
  intros H; revert n; induction H as [|x l Hx _ IH]; intros [|n];
    cbn [firstn]; auto.
Qed.

Lemma Forall_skipn_sub {A} (P : A -> Prop) n l :
  Forall P l -> Forall P (skipn n l).
Proof.
  intros H; revert n; induction H as [|x l Hx Hl IH]; intros [|n];
    cbn [skipn]; auto.
Qed.

Lemma length_window {A} o n (l : list A) m :
  length l = m -> (o + n <= m)%nat -> length (firstn n (skipn o l)) = n.
Proof.
  intros Hl Hb. rewrite length_firstn, length_skipn. lia.
Qed.

Lemma window_fits r m n : (n <= m)%nat -> (r mod (m - n + 1) + n <= m)%nat.
Proof.
  intros H. pose proof (Nat.mod_upper_bound r (m - n + 1) ltac:(lia)). lia.
Qed.

Lemma crop_image_shape {A} oy ox oc rows cols chans h w c
      (img : list (list (list A))) :
  has_shape h w c img ->
  (oy + rows <= h)%nat -> (ox + cols <= w)%nat -> (oc + chans <= c)%nat ->
  has_shape rows cols chans (crop_image oy ox oc rows cols chans img).
Proof.
  intros [Hh Hrows] Hy Hx Hc. unfold crop_image. split.
  - rewrite length_map. now apply (length_window oy rows img h).
  - apply Forall_map, Forall_firstn_sub, Forall_skipn_sub.
    eapply Forall_impl; [|exact Hrows]. intros row [Hw Hpx]. split.
    + rewrite length_map. now apply (length_window ox cols row w).
    + apply Forall_map, Forall_firstn_sub, Forall_skipn_sub.
      eapply Forall_impl; [|exact Hpx]. intros px Hl.
      now apply (length_window oc chans px c).
Qed.

Lemma crop_image_values {A} (P : A -> Prop) oy ox oc rows cols chans img :
  all_values P img ->
  all_values P (crop_image oy ox oc rows cols chans img).
Proof.
  unfold all_values, crop_image. intros H.
  apply Forall_map, Forall_firstn_sub, Forall_skipn_sub.
  eapply Forall_impl; [|exact H]. intros row Hrow.
  apply Forall_map, Forall_firstn_sub, Forall_skipn_sub.
  eapply Forall_impl; [|exact Hrow]. intros px Hpx.
  now apply Forall_firstn_sub, Forall_skipn_sub.
Qed.

Lemma map_image_shape {A B} (f : A -> B) h w c img :
  has_shape h w c img -> has_shape h w c (map_image f img).
Proof.
  intros [Hh Hrows]. unfold map_image. split; [now rewrite length_map|].
  apply Forall_map. eapply Forall_impl; [|exact Hrows].
  intros row [Hw Hpx]. split; [now rewrite length_map|].
  apply Forall_map. eapply Forall_impl; [|exact Hpx].
  intros px Hl. now rewrite length_map.
Qed.

Lemma map_image_values {A B} (P : A -> Prop) (Q : B -> Prop) (f : A -> B) img :
  (forall x, P x -> Q (f x)) ->
  all_values P img -> all_values Q (map_image f img).
Proof.
  unfold all_values, map_image. intros Hf H.
  apply Forall_map. eapply Forall_impl; [|exact H]. intros row Hrow.
  apply Forall_map. eapply Forall_impl; [|exact Hrow]. intros px Hpx.
  apply Forall_map. eapply Forall_impl; [|exact Hpx]. exact Hf.
Qed.

Lemma normalize_uint8 p : is_uint8 p -> in_unit_range (normalize (inject_Z p)).
Proof.
  intros Hp. destruct (inject_Z_bounds p Hp) as [H0 H255].
  unfold in_unit_range, normalize.
  assert (E : (inject_Z p - 127) / 128 == (1 # 128) * inject_Z p - (127 # 128))
    by field.
  rewrite E. lra.
Qed.

End TransformShape.

(** X17: what [transform] hands to the model: on a batch of pairs of
    [uint8] images of [h] x [w] x [c] into which the crop fits, the
    result has as many pairs as the batch, every image of it has
    [crop] rows of [crop] pixels of three channels, and every value lies
    in [-127/128, 1]. *)
Theorem X17_transform_output_shape_and_range h w c crop d example :
  Forall (fun p => length p = 2%nat) example ->
  (crop <= h)%nat -> (crop <= w)%nat -> (3 <= c)%nat ->
  Forall (Forall (fun img => Dataset.has_shape h w c img
                             /\ all_values is_uint8 img)) example ->
  exists out,
    Dataset.transform h w c crop d example = Returned out
    /\ length out = length example
    /\ Forall (fun p => length p = 2%nat
                        /\ Forall (fun img => Dataset.has_shape crop crop 3 img
                                              /\ all_values in_unit_range img) p)
              out.
Proof.
  intros Hp Hh Hw Hc Himg.
  pose proof (transform_fits h w c crop d example Hp Hh Hw Hc) as Ht.
  eexists. split; [exact Ht|]. split; [now rewrite length_map|].
  apply Forall_map. rewrite Forall_forall in *. intros p Hin.
  split; [rewrite length_map; now apply Hp|].
  apply Forall_map, Forall_forall. intros img Hi.
  specialize (Himg p Hin). rewrite Forall_forall in Himg.
  destruct (Himg img Hi) as [Hs Hv].
  unfold Dataset.crop_and_normalize. split.
  - apply map_image_shape. apply (crop_image_shape _ _ _ _ _ _ h w c); auto;
      unfold Dataset.window_row, Dataset.window_column, Dataset.window_channel;
      now apply window_fits.
  - apply (map_image_values is_uint8); [exact normalize_uint8|].
    now apply crop_image_values.
Qed.

Lemma X17_transform_output_shape_and_range_witness :
  exists out,
    Dataset.transform 3 3 3 2 Dataset.toy_draws Dataset.toy_example
    = Returned out
    /\ length out = 2%nat.
Proof.
  destruct (X17_transform_output_shape_and_range
              3 3 3 2 Dataset.toy_draws Dataset.toy_example)
    as (out & Ho & Hl & _); try lia.
  - repeat constructor.
  - unfold Dataset.toy_example, Dataset.toy_picture, Dataset.toy_pixel, is_uint8.
    repeat constructor; cbn; lia.
  - exists out. split; assumption.
Defined.

(* ================================================================== *)
(** ** Interleaving and batching the record files *)

Section Pipeline.

Import Dataset.

Context {A : Type}.

Lemma concat_live (shards : list (list A)) : concat (live shards) = concat shards.
Proof.
  induction shards as [|s l IH]; [reflexivity|].
  cbn [live filter concat]. destruct s as [|x s]; cbn; [exact IH|].
  fold (live l). now rewrite IH.
Qed.

Lemma live_nonempty (shards : list (list A)) :
  Forall (fun s => s <> []) (live shards).
Proof.
  unfold live. apply Forall_forall. intros s Hin.
  apply filter_In in Hin. destruct Hin as [_ H]. now destruct s.
Qed.

Lemma round_permutation k (l : list (list A)) :
  Permutation (concat (map (firstn k) l) ++ concat (map (skipn k) l))
              (concat l).
Proof.
  induction l as [|s l IH]; [reflexivity|].
  cbn [map concat]. rewrite <- (firstn_skipn k s) at 3.
  rewrite <- !app_assoc. apply Permutation_app_head.
  rewrite app_assoc.
  eapply Permutation_trans;
    [apply Permutation_app_tail, Permutation_app_comm|].
  rewrite <- app_assoc. now apply Permutation_app_head.
Qed.

Lemma round_consumes k (l : list (list A)) :
  (0 < k)%nat -> l <> [] -> Forall (fun s => s <> []) l ->
  (length (concat (map (skipn k) l)) < length (concat l))%nat.
Proof.
  intros Hk Hne Hall. destruct l as [|s l]; [congruence|].
  inversion Hall as [|? ? Hs Hl]; subst.
  cbn [map concat]. rewrite !length_app, length_skipn.
  assert (H1 : (length (concat (map (skipn k) l)) <= length (concat l))%nat).
  { clear. induction l as [|t l IH]; [reflexivity|].
    cbn [map concat]. rewrite !length_app, length_skipn. lia. }
  destruct s; [congruence|]. cbn [length]. lia.
Qed.

Lemma interleave_rounds_permutation fuel k (shards : list (list A)) :
  (0 < k)%nat -> (length (concat shards) <= fuel)%nat ->
  Permutation (interleave_rounds fuel k shards) (concat shards).
Proof.
  intros Hk. revert shards; induction fuel as [|fuel IH]; intros shards Hf.
  - cbn. destruct (concat shards); [constructor|simpl in Hf; lia].
  - cbn [interleave_rounds]. rewrite <- concat_live in *.
    pose proof (live_nonempty shards) as Hall.
    destruct (live shards) as [|s l] eqn:E; [reflexivity|].
    pose proof (round_consumes k (s :: l) Hk ltac:(discriminate) Hall) as Hc.
    eapply Permutation_trans; [|apply (round_permutation k)].
    apply Permutation_app_head, IH. lia.
Qed.

Lemma batch_rounds_concat fuel k (l : list A) :
  (0 < k)%nat -> (length l <= fuel)%nat ->
  concat (batch_rounds fuel k l) = l.
Proof.
  intros Hk. revert l; induction fuel as [|fuel IH]; intros l Hf.
  - destruct l; [reflexivity|simpl in Hf; lia].
  - destruct l as [|x l]; [reflexivity|].
    cbn [batch_rounds concat]. rewrite IH; [apply firstn_skipn|].
    rewrite length_skipn. cbn [length] in *. lia.
Qed.

Lemma batch_rounds_sizes fuel k (l : list A) :
  (0 < k)%nat -> (length l <= fuel)%nat ->
  Forall (fun b => b <> [] /\ (length b <= k)%nat) (batch_rounds fuel k l)
  /\ forall i, (S i < length (batch_rounds fuel k l))%nat ->
               length (nth i (batch_rounds fuel k l) []) = k.
Proof.
  intros Hk. revert l; induction fuel as [|fuel IH]; intros l Hf.
  - cbn. split; [constructor|intros; lia].
  - destruct l as [|x l]; [cbn; split; [constructor|intros; lia]|].
    cbn [batch_rounds].
    assert (Hf' : (length (skipn k (x :: l)) <= fuel)%nat)
      by (rewrite length_skipn; cbn [length] in *; lia).
    destruct (IH _ Hf') as [Hall Hfull]. split.
    + constructor; [|exact Hall]. split.
      * destruct k; [lia|discriminate].
      * rewrite length_firstn. lia.
    + intros [|i] Hi; cbn [nth].
      * cbn [length] in Hi.
        destruct (skipn k (x :: l)) as [|y r] eqn:E.
        { destruct fuel; cbn in Hi; lia. }
        rewrite length_firstn.
        assert (length (skipn k (x :: l)) <> 0%nat) by (rewrite E; discriminate).
        rewrite length_skipn in *. lia.
      * apply Hfull. cbn [length] in Hi. lia.
Qed.

End Pipeline.

(** X18: the pipeline neither loses nor repeats a record: for a positive
    batch size the batches handed to [transform], laid end to end, are a
    rearrangement of the parsed records of all the files. *)
Theorem X18_batches_are_a_permutation {R E} (parse : R -> E) k tfrecs :
  (0 < k)%nat -> tfrecs <> [] ->
  Permutation (concat (Dataset.get_dataset_batches parse k tfrecs))
              (map parse (concat tfrecs)).
Proof.
  intros Hk _. unfold Dataset.get_dataset_batches, Dataset.batch.
  rewrite batch_rounds_concat by auto.
  apply Permutation_map. unfold Dataset.interleave.
  now apply interleave_rounds_permutation.
Qed.

Lemma X18_batches_are_a_permutation_witness :
  Permutation
    (concat (Dataset.get_dataset_batches Z.succ 2
               [[1; 2; 3; 4; 5]; []; [10; 20; 30]]%Z))
    (map Z.succ [1; 2; 3; 4; 5; 10; 20; 30]%Z).
Proof.
  apply (X18_batches_are_a_permutation Z.succ 2
           [[1; 2; 3; 4; 5]; []; [10; 20; 30]]%Z).
  - lia.
  - discriminate.
Defined.

(** X19: for a positive batch size no batch is empty, no batch holds more
    than [batch_size] examples, and every batch but the last holds
    exactly [batch_size]. *)
Theorem X19_batch_sizes {R E} (parse : R -> E) k tfrecs :
  (0 < k)%nat -> tfrecs <> [] ->
  let batches := Dataset.get_dataset_batches parse k tfrecs in
  Forall (fun b => b <> [] /\ (length b <= k)%nat) batches
  /\ forall i, (S i < length batches)%nat -> length (nth i batches []) = k.
Proof.
  intros Hk _ batches. unfold batches, Dataset.get_dataset_batches, Dataset.batch.
  now apply batch_rounds_sizes.
Qed.

Lemma X19_batch_sizes_witness :
  Forall (fun b => b <> [] /\ (length b <= 2)%nat)
         (Dataset.get_dataset_batches Z.succ 2
            [[1; 2; 3; 4; 5]; []; [10; 20; 30]]%Z)
  /\ length (nth 0 (Dataset.get_dataset_batches Z.succ 2
                      [[1; 2; 3; 4; 5]; []; [10; 20; 30]]%Z) []) = 2%nat.
Proof.
  destruct (X19_batch_sizes Z.succ 2 [[1; 2; 3; 4; 5]; []; [10; 20; 30]]%Z
              ltac:(lia) ltac:(discriminate)) as [Ha Hf].
  split; [exact Ha|]. apply Hf. cbn. lia.
Defined.

(* ================================================================== *)
(** ** Batches of whole blocks *)

Section Blocks.

Import Dataset.

Context {A : Type}.

Lemma interleave_rounds_blocks fuel k (shards0 shards : list (list A)) :
  (0 < k)%nat ->
  Forall (fun s => exists q, length s = (q * k)%nat) shards ->
  Forall (tail_of k shards0) shards ->
  exists blocks,
    interleave_rounds fuel k shards = concat blocks
    /\ Forall (block_of k shards0) blocks.
Proof.
  intros Hk. revert shards; induction fuel as [|fuel IH]; intros shards Hm Ht.
  - exists []. split; [reflexivity|constructor].
  - cbn [interleave_rounds].
    assert (Hl : Forall (fun s => s <> [] /\ (exists q, length s = (q * k)%nat)
                                  /\ tail_of k shards0 s) (live shards)).
    { apply Forall_forall. intros s Hin. unfold live in Hin.
      apply filter_In in Hin. destruct Hin as [Hin Hne].
      rewrite Forall_forall in Hm, Ht. repeat split; auto.
      now destruct s. }
    destruct (live shards) as [|s l] eqn:E.
    + exists []. split; [reflexivity|constructor].
    + destruct (IH (map (skipn k) (s :: l))) as (blocks & Hb & Hall).
      * apply Forall_map. eapply Forall_impl; [|exact Hl].
        intros t (_ & (q & Hq) & _). exists (q - 1)%nat.
        rewrite length_skipn, Hq. nia.
      * apply Forall_map. eapply Forall_impl; [|exact Hl].
        intros t (_ & _ & (s0 & j & Hin & ->)). exists s0, (S j). split; [exact Hin|].
        rewrite skipn_skipn. reflexivity.
      * exists (map (firstn k) (s :: l) ++ blocks). split.
        { now rewrite concat_app, Hb. }
        apply Forall_app. split; [|exact Hall].
        apply Forall_map. eapply Forall_impl; [|exact Hl].
        intros t (Hne & (q & Hq) & (s0 & j & Hin & ->)).
        exists s0, j. split; [exact Hin|]. split; [reflexivity|].
        rewrite length_firstn, Hq.
        destruct q; [destruct (skipn (j * k) s0); [congruence|discriminate]|].
        nia.
Qed.

Lemma batch_rounds_blocks {B} fuel k (blocks : list (list B)) :
  (0 < k)%nat -> Forall (fun b => length b = k) blocks ->
  (length (concat blocks) <= fuel)%nat ->
  batch_rounds fuel k (concat blocks) = blocks.
Proof.
  intros Hk. revert blocks; induction fuel as [|fuel IH]; intros blocks Hall Hf.
  - destruct blocks as [|b l]; [reflexivity|].
    inversion Hall; subst. cbn [concat] in Hf. rewrite length_app in Hf. lia.
  - destruct blocks as [|b l]; [reflexivity|].
    inversion Hall as [|? ? Hb Hl]; subst.
    cbn [concat] in *. rewrite length_app in Hf.
    destruct (b ++ concat l) as [|x r] eqn:E.
    + apply (f_equal (@length B)) in E. rewrite length_app in E.
      cbn [length] in E. lia.
    + cbn [batch_rounds]. rewrite <- E.
      rewrite firstn_app, Nat.sub_diag, firstn_all. cbn [firstn].
      rewrite app_nil_r, skipn_app, Nat.sub_diag, skipn_all. cbn [skipn app].
      f_equal. apply IH; [exact Hl|lia].
Qed.

End Blocks.

(** X20: when every file holds a multiple of [batch_size] records, every
    batch is one block of [batch_size] consecutive records of a single
    file: no batch mixes the records of two files. *)
Theorem X20_batches_come_from_one_file {R E} (parse : R -> E) k tfrecs :
  (0 < k)%nat -> tfrecs <> [] ->
  Forall (fun s => exists q, length s = (q * k)%nat) tfrecs ->
  Forall (fun b => exists s j,
            In s tfrecs
            /\ b = map parse (firstn k (skipn (j * k) s))
            /\ length b = k)
         (Dataset.get_dataset_batches parse k tfrecs).
Proof.
  intros Hk _ Hm.
  unfold Dataset.get_dataset_batches, Dataset.batch, Dataset.interleave.
  destruct (interleave_rounds_blocks (length (concat tfrecs)) k tfrecs tfrecs
              Hk Hm) as (blocks & Hb & Hall).
  { apply Forall_forall. intros s Hin. exists s, 0%nat. auto. }
  rewrite Hb, concat_map.
  rewrite batch_rounds_blocks.
  - apply Forall_map. eapply Forall_impl; [|exact Hall].
    intros b (s & j & Hin & -> & Hlen). exists s, j.
    split; [exact Hin|]. split; [reflexivity|]. now rewrite length_map.
  - exact Hk.
  - apply Forall_map. eapply Forall_impl; [|exact Hall].
    intros b (_ & _ & _ & _ & Hlen). now rewrite length_map.
  - reflexivity.
Qed.

Lemma X20_batches_come_from_one_file_witness :
  Dataset.get_dataset_batches Z.succ 2 [[1; 2; 3; 4]; [10; 20]]%Z
  = [[2; 3]; [11; 21]; [4; 5]]%Z
  /\ Forall (fun b => exists s j,
               In s [[1; 2; 3; 4]; [10; 20]]%Z
               /\ b = map Z.succ (firstn 2 (skipn (j * 2) s))
               /\ length b = 2%nat)
            (Dataset.get_dataset_batches Z.succ 2 [[1; 2; 3; 4]; [10; 20]]%Z).
Proof.
  split; [reflexivity|].
  apply (X20_batches_come_from_one_file Z.succ 2 [[1; 2; 3; 4]; [10; 20]]%Z).
  - lia.
  - discriminate.
  - repeat constructor; [now exists 2%nat|now exists 1%nat].
Defined.


(* ================================================================== *)
(** ** The download script *)

Section DownloadFacts.

Import Download.

Lemma path_eqb_refl p : path_eqb p p = true.
Proof. unfold path_eqb. destruct (list_eq_dec string_dec p p); congruence. Qed.

Lemma path_eqb_neq p q : p <> q -> path_eqb p q = false.
Proof. unfold path_eqb. destruct (list_eq_dec string_dec p q); congruence. Qed.

Lemma put_same fs p n : put fs p n p = Some n.
Proof. unfold put. now rewrite path_eqb_refl. Qed.

Lemma put_other fs p n q : q <> p -> put fs p n q = fs q.
Proof. intros H. unfold put. now rewrite path_eqb_neq. Qed.

Lemma isfile_exists fs p : isfile fs p = true -> path_exists fs p = true.
Proof. unfold isfile, path_exists. destruct (fs p) as [[]|]; congruence. Qed.

Lemma string_append_assoc (a b c : string) :
  ((a ++ b) ++ c = a ++ (b ++ c))%string.
Proof. induction a as [|x a IH]; simpl; [reflexivity|now rewrite IH]. Qed.

Lemma string_append_empty (a : string) : (a ++ "" = a)%string.
Proof. induction a as [|x a IH]; simpl; [reflexivity|now rewrite IH]. Qed.

(** The loop: the count is the number of bytes received, the file holds
    what it held followed by the blocks, nothing else changes. *)
Lemma write_blocks_from fs p bs n0 c0 :
  fs p = Some (File c0) ->
  exists fs',
    fold_left (fun '(n, fs) block =>
                 ((n + String.length block)%nat, write_block fs p block))
              bs (n0, fs)
    = ((n0 + received bs)%nat, fs')
    /\ fs' p = Some (File (c0 ++ join_blocks bs))
    /\ forall q, q <> p -> fs' q = fs q.
Proof.
  revert fs n0 c0; induction bs as [|b bs IH]; intros fs n0 c0 Hp.
  - exists fs. cbn. rewrite Nat.add_0_r, string_append_empty. auto.
  - cbn [fold_left received join_blocks fold_right].
    assert (Hw : write_block fs p b p = Some (File (c0 ++ b)))
      by (unfold write_block; rewrite Hp; apply put_same).
    destruct (IH (write_block fs p b) (n0 + String.length b)%nat _ Hw)
      as (fs' & Hf & Hc & Ho).
    exists fs'. split; [|split].
    + etransitivity; [exact Hf|]. f_equal. unfold received. lia.
    + rewrite Hc, string_append_assoc. reflexivity.
    + intros q Hq. rewrite (Ho q Hq). unfold write_block. rewrite Hp.
      now apply put_other.
Qed.

Lemma write_blocks_spec fs p bs c0 :
  fs p = Some (File c0) ->
  exists fs',
    write_blocks fs p bs = (received bs, fs')
    /\ fs' p = Some (File (c0 ++ join_blocks bs))
    /\ forall q, q <> p -> fs' q = fs q.
Proof.
  intros Hp. destruct (write_blocks_from fs p bs 0 c0 Hp) as (fs' & Hw & H).
  exists fs'. split; [exact Hw|exact H].
Qed.

Variable network : string -> result response.
Variable extractall : string -> path -> filesystem -> result filesystem.

(** What [download] does on a path that is not a file yet, once the
    request is answered and the file can be created. *)
Lemma download_fresh url p w resp :
  isfile (disk w) p = false ->
  requests_get network url = Ok resp ->
  (exists fs, open_wb (disk w) p = Ok fs) ->
  exists fs',
    download network url p w
    = Ok (complete resp,
          if complete resp
          then {| disk := fs'; printed := printed w |}
          else print {| disk := fs'; printed := printed w |}
                     (Sizes (declared_size resp) (received (blocks resp))))
    /\ fs' p = Some (File (join_blocks (blocks resp)))
    /\ forall q, q <> p -> fs' q = disk w q.
Proof.
  intros Hf Hr [fs0 Ho]. unfold download.
  rewrite Hf, andb_false_r. cbn [negb]. rewrite Hr. cbn [rbind].
  rewrite Ho. cbn [rbind].
  assert (H0 : fs0 p = Some (File "") /\ forall q, q <> p -> fs0 q = disk w q).
  { unfold open_wb in Ho.
    destruct (disk w p) as [[c|]|] eqn:E; try discriminate;
      destruct (check_parent (disk w) p); try discriminate;
      cbn [rbind] in Ho; injection Ho as <-;
      (split; [apply put_same|intros q Hq; now apply put_other]). }
  destruct H0 as [H0 Hother].
  destruct (write_blocks_spec fs0 p (blocks resp) "" H0) as (fs' & Hw & Hc & Hq).
  rewrite Hw.
  exists fs'. split; [|split; [exact Hc|]].
  - unfold complete, declared_size.
    destruct (content_length resp) as [total|]; [|reflexivity].
    destruct (total =? 0)%nat; cbn [negb andb orb]; [reflexivity|].
    destruct (received (blocks resp) =? total)%nat; reflexivity.
  - intros q Hne. rewrite (Hq q Hne). now apply Hother.
Qed.

Lemma download_existing url p w :
  isfile (disk w) p = true -> download network url p w = Ok (false, w).
Proof.
  intros H. unfold download. now rewrite H, (isfile_exists _ _ H).
Qed.

End DownloadFacts.

Section ScriptFacts.

Import Download.

Variable network : string -> result response.
Variable extractall : string -> path -> filesystem -> result filesystem.

Lemma download_inv url p w b w1 :
  download network url p w = Ok (b, w1) ->
  (b = true /\ isfile (disk w1) p = true /\ printed w1 = printed w)
  \/ (b = false
      /\ (printed w1 = printed w
          \/ exists t n, printed w1 = printed w ++ [Sizes t n])).
Proof.
  destruct (isfile (disk w) p) eqn:Hf.
  - rewrite (download_existing network url p w Hf). intros H.
    injection H as <- <-. right. auto.
  - intros H.
    destruct (requests_get network url) as [resp|] eqn:Hr.
    + destruct (open_wb (disk w) p) as [fs0|] eqn:Ho.
      * destruct (download_fresh network url p w resp Hf Hr
                    (ex_intro _ fs0 Ho)) as (fs' & Hd & Hc & _).
        rewrite Hd in H. injection H as <- <-.
        destruct (complete resp).
        -- left. cbn [disk printed]. unfold isfile. rewrite Hc. auto.
        -- right. split; [reflexivity|]. right. unfold print.
           cbn [printed]. eauto.
      * unfold download in H. rewrite Hf, andb_false_r, Hr in H.
        cbn [negb rbind] in H. rewrite Ho in H. discriminate.
    + unfold download in H. rewrite Hf, andb_false_r, Hr in H. discriminate.
Qed.

Lemma extract_inv p target w ok w' :
  isfile (disk w) p = true ->
  extract extractall p target w = Ok (ok, w') ->
  ok = true /\ printed w' = printed w.
Proof.
  intros Hf. unfold extract. rewrite Hf, (isfile_exists _ _ Hf). cbn [andb].
  unfold isfile in Hf. destruct (disk w p) as [[c|]|]; try discriminate.
  destruct (extractall c target (disk w)); [|discriminate].
  cbn [rbind]. intros H. injection H as <- <-. auto.
Qed.

Lemma create_folder_inv file w p w1 :
  create_folder file w = Ok (p, w1) ->
  p = join (dirname (dirname (dirname file))) "dataset"
  /\ path_exists (disk w1) p = true
  /\ printed w1 = printed w
  /\ (forall q, q <> p -> disk w1 q = disk w q).
Proof.
  unfold create_folder.
  set (f := join (dirname (dirname (dirname file))) "dataset").
  destruct (path_exists (disk w) f) eqn:He; cbn [negb].
  - intros H. injection H as <- <-. auto.
  - unfold mkdir. unfold path_exists in He.
    destruct (disk w f); [discriminate|].
    destruct (check_parent (disk w) f); [|discriminate].
    cbn [rbind]. intros H. injection H as <- <-. cbn [disk printed].
    repeat split; auto.
    + unfold path_exists. now rewrite put_same.
    + intros q Hq. now apply put_other.
Qed.

End ScriptFacts.

(** X21: what [download] leaves behind: on a path that does not exist
    yet, in an existing directory, the file is created with the bytes of
    all the blocks received; the call returns [True] exactly when the
    [content-length] header is missing, zero or equal to the number of
    bytes received, and otherwise prints the two sizes and returns
    [False], the incomplete file staying on disk. *)
Theorem X21_download_writes_the_response network url p w resp :
  Download.disk w p = None ->
  Download.disk w (Download.dirname p) = Some Download.Directory ->
  Download.requests_get network url = Download.Ok resp ->
  exists w',
    Download.download network url p w = Download.Ok (complete resp, w')
    /\ Download.disk w' p
       = Some (Download.File (join_blocks (Download.blocks resp)))
    /\ (forall q, q <> p -> Download.disk w' q = Download.disk w q)
    /\ Download.printed w'
       = Download.printed w
         ++ (if complete resp then []
             else [Download.Sizes (declared_size resp)
                                  (received (Download.blocks resp))]).
Proof.
  intros Hn Hd Hr.
  destruct (download_fresh network url p w resp) as (fs' & H & Hc & Hq).
  - unfold Download.isfile. now rewrite Hn.
  - exact Hr.
  - unfold Download.open_wb, Download.check_parent. rewrite Hn, Hd.
    eexists. reflexivity.
  - rewrite H. eexists. split; [reflexivity|].
    destruct (complete resp); cbn [Download.disk Download.printed Download.print];
      repeat split; auto. now rewrite app_nil_r.
Qed.

Lemma X21_download_writes_the_response_witness :
  exists w',
    Download.download Download.toy_network "http://host/blur.zip"
      ["repo"; "blur.zip"]%string
      {| Download.disk := Download.toy_disk; Download.printed := [] |}
    = Download.Ok (false, w')
    /\ Download.disk w' ["repo"; "blur.zip"]%string
       = Some (Download.File "abcde")
    /\ Download.printed w' = [Download.Sizes 6 5].
Proof.
  destruct (X21_download_writes_the_response
              Download.toy_network "http://host/blur.zip"
              ["repo"; "blur.zip"]%string
              {| Download.disk := Download.toy_disk; Download.printed := [] |}
              {| Download.content_length := Some 6%nat;
                 Download.blocks := ["abc"%string; "de"%string] |}
              eq_refl eq_refl eq_refl) as (w' & H & Hc & _ & Hp).
  exists w'. split; [exact H|]. split; [exact Hc|exact Hp].
Defined.

(** X22: an incomplete download blocks every retry: after [download] has
    written a file (complete or not), any later call for the same path,
    with any URL and any server, returns [False] without a request and
    leaves the file as it is. *)
Theorem X22_download_never_retries network url p w resp :
  Download.disk w p = None ->
  Download.disk w (Download.dirname p) = Some Download.Directory ->
  Download.requests_get network url = Download.Ok resp ->
  exists w',
    Download.download network url p w = Download.Ok (complete resp, w')
    /\ forall network' url',
         Download.download network' url' p w' = Download.Ok (false, w').
Proof.
  intros Hn Hd Hr.
  destruct (download_fresh network url p w resp) as (fs' & H & Hc & _).
  - unfold Download.isfile. now rewrite Hn.
  - exact Hr.
  - unfold Download.open_wb, Download.check_parent. rewrite Hn, Hd.
    eexists. reflexivity.
  - rewrite H. eexists. split; [reflexivity|].
    intros network' url'. apply download_existing.
    unfold Download.isfile.
    destruct (complete resp); cbn [Download.disk Download.print]; now rewrite Hc.
Qed.

Lemma X22_download_never_retries_witness :
  exists w',
    Download.download Download.toy_network "http://host/blur.zip"
      ["repo"; "blur.zip"]%string
      {| Download.disk := Download.toy_disk; Download.printed := [] |}
    = Download.Ok (false, w')
    /\ Download.download Download.toy_network "http://host/blur.zip"
         ["repo"; "blur.zip"]%string w'
       = Download.Ok (false, w').
Proof.
  destruct (X22_download_never_retries
              Download.toy_network "http://host/blur.zip"
              ["repo"; "blur.zip"]%string
              {| Download.disk := Download.toy_disk; Download.printed := [] |}
              {| Download.content_length := Some 6%nat;
                 Download.blocks := ["abc"%string; "de"%string] |}
              eq_refl eq_refl eq_refl) as (w' & H & Hre).
  exists w'. split; [exact H|apply Hre].
Defined.

(** X23: what [execute] can print, whatever URL line 115 holds: either
    the line ['Error on download or file already downloaded'] (preceded
    by the two sizes after an incomplete download), or ['Extracting
    files'] followed by ['Extraction succesful']; the line ['Download
    path does not exists'] is never printed, because the archive exists
    whenever the extraction is attempted. *)
Theorem X23_execute_messages network extractall url file w w' :
  Download.execute_from network extractall url file w = Download.Ok w' ->
  Download.printed w'
  = Download.printed w
    ++ [Download.Text "Error on download or file already downloaded"]
  \/ (exists t n,
        Download.printed w'
        = Download.printed w
          ++ [Download.Sizes t n;
              Download.Text "Error on download or file already downloaded"])
  \/ Download.printed w'
     = Download.printed w
       ++ [Download.Text "Extracting files";
           Download.Text "Extraction succesful"].
Proof.
  unfold Download.execute_from.
  destruct (Download.create_folder file w) as [[folder w0]|] eqn:Ec;
    [|discriminate].
  apply create_folder_inv in Ec. destruct Ec as (_ & _ & Hp0 & _).
  cbn [Download.rbind].
  destruct (Download.download network url _ w0) as [[b w1]|] eqn:Ed;
    [|discriminate].
  apply download_inv in Ed. cbn [Download.rbind].
  destruct Ed as [(-> & Hf & Hp1) | (-> & Hp1)]; cbn [negb].
  - destruct (Download.extract extractall _ folder _) as [[ok w2]|] eqn:Ee;
      [|discriminate].
    apply extract_inv in Ee; [|exact Hf]. destruct Ee as [-> Hp2].
    cbn [Download.rbind negb]. intros H. injection H as <-.
    right. right. cbn [Download.print Download.printed] in *.
    rewrite Hp2, Hp1, Hp0, <- app_assoc. reflexivity.
  - intros H. injection H as <-. cbn [Download.print Download.printed].
    destruct Hp1 as [Hp1 | (t & n & Hp1)].
    + left. now rewrite Hp1, Hp0.
    + right. left. exists t, n. rewrite Hp1, Hp0, <- app_assoc. reflexivity.
Qed.

Lemma X23_execute_messages_witness :
  exists w',
    Download.execute_from Download.toy_network Download.toy_extractall
      "http://host/blur.zip" Download.toy_script
      {| Download.disk := Download.toy_disk; Download.printed := [] |}
    = Download.Ok w'
    /\ Download.printed w'
       = [Download.Sizes 6 5;
          Download.Text "Error on download or file already downloaded"].
Proof.
  eassert (H : Download.execute_from Download.toy_network
                 Download.toy_extractall "http://host/blur.zip"
                 Download.toy_script
                 {| Download.disk := Download.toy_disk;
                    Download.printed := [] |} = Download.Ok _)
    by reflexivity.
  pose proof (X23_execute_messages _ _ _ _ _ _ H) as Hm.
  eexists. split; [exact H|reflexivity].
Defined.

(** X24: [execute] as it stands cannot download: the URL of line 115 is
    the placeholder ['downlaod'], which has no scheme.  Once the data
    folder is there, either [blur.zip] is already a file, and the call
    only prints ['Error on download or file already downloaded'], or it
    is not, and the call raises [MissingSchema] before any byte is
    requested or written; nothing is ever extracted. *)
Theorem X24_execute_placeholder_url network extractall file w folder w1 :
  Download.create_folder file w = Download.Ok (folder, w1) ->
  (Download.isfile (Download.disk w1) (Download.join folder "blur.zip") = true ->
   Download.execute network extractall file w
   = Download.Ok
       (Download.print w1
          (Download.Text "Error on download or file already downloaded")))
  /\ (Download.isfile (Download.disk w1) (Download.join folder "blur.zip") = false ->
      Download.execute network extractall file w
      = Download.Err Download.MissingSchema).
Proof.
  intros Hc. unfold Download.execute, Download.execute_from.
  rewrite Hc. cbn [Download.rbind]. split; intros Hf.
  - now rewrite (download_existing network _ _ _ Hf).
  - unfold Download.download. rewrite Hf, andb_false_r. reflexivity.
Qed.

Lemma X24_execute_placeholder_url_witness :
  Download.execute Download.toy_network Download.toy_extractall
    Download.toy_script
    {| Download.disk := Download.toy_disk; Download.printed := [] |}
  = Download.Err Download.MissingSchema.
Proof.
  eapply (X24_execute_placeholder_url Download.toy_network
            Download.toy_extractall Download.toy_script _ _ _).
  - reflexivity.
  - reflexivity.
Defined.

(** X25: [create_folder] creates the data folder once: the folder is
    [dataset] three levels above the script; after a successful call it
    exists, nothing else on disk has changed, nothing was printed, and a
    second call returns the same path and changes nothing.  When the
    folder is absent and its parent does not exist the call raises
    [FileNotFoundError]. *)
Theorem X25_create_folder_once file w :
  let folder :=
    Download.join (Download.dirname (Download.dirname (Download.dirname file)))
                  "dataset" in
  (forall p w1,
     Download.create_folder file w = Download.Ok (p, w1) ->
     p = folder
     /\ Download.path_exists (Download.disk w1) folder = true
     /\ Download.printed w1 = Download.printed w
     /\ (forall q, q <> folder -> Download.disk w1 q = Download.disk w q)
     /\ Download.create_folder file w1 = Download.Ok (folder, w1))
  /\ (Download.disk w folder = None ->
      Download.disk w (Download.dirname folder) = None ->
      Download.create_folder file w = Download.Err Download.FileNotFoundError).
Proof.
  intros folder. split.
  - intros p w1 H. destruct (create_folder_inv file w p w1 H)
      as (-> & He & Hp & Hq).
    fold folder in He, Hq |- *. repeat split; auto.
    unfold Download.create_folder. fold folder. now rewrite He.
  - intros Hn Hd. unfold Download.create_folder. fold folder.
    unfold Download.path_exists, Download.mkdir, Download.check_parent.
    now rewrite Hn, Hd.
Qed.

Lemma X25_create_folder_once_witness :
  exists w1,
    Download.create_folder Download.toy_script
      {| Download.disk := Download.toy_disk; Download.printed := [] |}
    = Download.Ok (["repo"; "dataset"]%string, w1)
    /\ Download.create_folder Download.toy_script w1
       = Download.Ok (["repo"; "dataset"]%string, w1).
Proof.
  eassert (H : Download.create_folder Download.toy_script
                 {| Download.disk := Download.toy_disk;
                    Download.printed := [] |} = Download.Ok (_, _))
    by reflexivity.
  destruct (X25_create_folder_once Download.toy_script
              {| Download.disk := Download.toy_disk; Download.printed := [] |})
    as [Hok _].
  destruct (Hok _ _ H) as (_ & _ & _ & _ & Hagain).
  eexists. split; [exact H|exact Hagain].
Defined.

(* ================================================================== *)
(** ** Losses within the float32 range *)

Section Float32Range.


Lemma inject_nat_succ n :
  inject_Z (Z.of_nat (S n)) == inject_Z (Z.of_nat n) + 1.
Proof. rewrite Nat2Z.inj_succ, <- Z.add_1_r, inject_Z_plus. reflexivity. Qed.

Lemma inject_nat_ge_1 n : (0 < n)%nat -> 1 <= inject_Z (Z.of_nat n).
Proof.
  intros H. change 1 with (inject_Z 1). rewrite <- Zle_Qle. lia.
Qed.

Lemma plain_term_le b p B :
  - B <= p -> p <= B -> (p - target b) ^ 2 <= (B + 1) ^ 2.
Proof.
  intros Hl Hu. destruct b; unfold target.
  - assert (E : (B + 1) ^ 2 - (p - 1) ^ 2 == (B - p + 2) * (B + p))
      by (simpl; ring).
    assert (H : 0 <= (B - p + 2) * (B + p))
      by (apply Qmult_le_0_compat; lra).
    rewrite <- E in H. lra.
  - assert (E : (B + 1) ^ 2 - (p - -1) ^ 2 == (B - p) * (B + p + 2))
      by (simpl; ring).
    assert (H : 0 <= (B - p) * (B + p + 2))
      by (apply Qmult_le_0_compat; lra).
    rewrite <- E in H. lra.
Qed.

Lemma Qsum_plain_terms_le b ps B :
  bounded B ps ->
  Qsum (plain_terms b ps) <= inject_Z (Z.of_nat (length ps)) * (B + 1) ^ 2.
Proof.
  induction 1 as [|p ps [Hl Hu] _ IH].
  - cbn [plain_terms map length]. rewrite Qsum_nil.
    change (inject_Z (Z.of_nat 0)) with 0. rewrite Qmult_0_l. apply Qle_refl.
  - rewrite plain_terms_cons, Qsum_cons. cbn [length].
    rewrite inject_nat_succ.
    pose proof (plain_term_le b p B Hl Hu) as Hp.
    set (q := (p - target b) ^ 2) in *.
    set (S1 := Qsum (plain_terms b ps)) in *.
    set (n := inject_Z (Z.of_nat (length ps))) in *.
    set (c := (B + 1) ^ 2) in *.
    lra.
Qed.

(** On predictions within the range the loss is a finite mean between
    zero and half the largest float32. *)
Lemma ragan_mean_range b g n ps B :
  rng_valid g -> length ps = n -> ps <> [] ->
  bounded B ps -> ragan_fits n B ->
  exists q,
    Qmean (zip_with (kernel_term (flag_weight b)) (soft_factors g n) ps) = Fin q
    /\ 0 <= q /\ 2 * q <= float32_max.
Proof.
  intros Hg Hn Hne HB Hfit.
  destruct (ragan_mean_nonneg b g n ps Hg Hn Hne) as (q & Hq & Hq0).
  exists q. split; [exact Hq|]. split; [exact Hq0|].
  assert (Hlen : length (soft_factors g n) = length ps)
    by now rewrite soft_factors_length.
  rewrite (Qmean_nonempty _ (zip_with_nonempty _ _ ps Hlen Hne)) in Hq.
  rewrite zip_with_length, Hlen, Nat.min_id in Hq.
  injection Hq as Hq.
  destruct (Qsum_terms_bounds b (soft_factors g n) ps Hlen
              (fun f Hf => soft_factors_in_range g _ f Hg Hf)) as [_ Hu].
  pose proof (Qsum_plain_terms_le b ps B HB) as Hs.
  pose proof (count_pos ps Hne) as Hpos.
  assert (H1 : 1 <= inject_Z (Z.of_nat (length ps))).
  { apply inject_nat_ge_1. destruct ps; [congruence|simpl; lia]. }
  unfold ragan_fits in Hfit. rewrite <- Hn in Hfit.
  pose proof (square_nonneg (B + 1)) as Hc.
  set (S2 := Qsum (zip_with (kernel_term (flag_weight b)) (soft_factors g n) ps)) in *.
  set (S1 := Qsum (plain_terms b ps)) in *.
  set (d := inject_Z (Z.of_nat (length ps))) in *.
  set (c := (B + 1) ^ 2) in *.
  assert (Hqd : q * d == S2) by (rewrite <- Hq; field; lra).
  assert (Hqc : q <= 1.1 * c).
  { assert (q * d <= 1.1 * c * d) by (rewrite Hqd; lra).
    apply Qmult_le_r with (z := d); assumption. }
  assert (Hcd : c <= d * c) by nra.
  lra.
Qed.

End Float32Range.

Section FlagConversion.

Lemma to_float32_in_range x :
  - float32_max <= x -> x <= float32_max -> to_float32 x = Fin x.
Proof.
  intros Hl Hu. unfold to_float32.
  apply Qle_bool_iff in Hl. apply Qle_bool_iff in Hu.
  now rewrite Hl, Hu.
Qed.

Lemma tf_constant_float x R :
  - R <= x -> x <= R -> R <= float32_max ->
  tf_constant (PyFloat x) = Returned (Fin x).
Proof.
  intros Hl Hu HR. cbn [tf_constant]. f_equal.
  apply to_float32_in_range; lra.
Qed.

Lemma tf_constant_int z R :
  - R <= inject_Z z -> inject_Z z <= R -> R <= float32_max ->
  tf_constant (PyInt z) = Returned (Fin (inject_Z z)).
Proof.
  intros Hl Hu HR. cbn [tf_constant].
  assert (H1 : inject_Z z <= float32_max) by lra.
  assert (H2 : inject_Z (- float32_max_int) <= inject_Z z).
  { rewrite inject_Z_opp. fold float32_max. lra. }
  unfold float32_max in H1. rewrite <- Zle_Qle in H1, H2.
  assert (H3 : (float32_max_int <= double_max_int)%Z) by (intros E; discriminate E).
  assert (E : (Z.abs z <=? double_max_int)%Z = true) by (apply Z.leb_le; lia).
  rewrite E. f_equal. apply to_float32_in_range; lra.
Qed.

Lemma raised_flag preds G v e g :
  tf_constant v = Raised e ->
  ragan_ls_loss preds v g = Raised e
  /\ discriminator_loss {| local_ := preds; global_ := G |} v g = Raised e.
Proof.
  intros Hv.
  assert (H : ragan_ls_loss preds v g = Raised e)
    by (unfold ragan_ls_loss; now rewrite Hv).
  split; [exact H|]. unfold discriminator_loss. now apply bind_raised.
Qed.

Lemma soft_factors_redrawn g g' n m :
  redrawn g g' n ->
  soft_factors (advance g' n) m = soft_factors (advance g n) m.
Proof.
  intros [Hc Ht]. unfold soft_factors. apply map_ext. intros i.
  unfold noise_at, draw_index, advance. cbn [cursor tape].
  rewrite Hc, Ht by lia. reflexivity.
Qed.

Lemma sample_rng'_redrawn : redrawn sample_rng sample_rng' 2.
Proof.
  split; [reflexivity|]. intros k [Hk|Hk]; [cbn in Hk; lia|].
  unfold sample_rng'. cbn [tape cursor] in *.
  destruct (Nat.ltb_spec k 2); [lia|reflexivity].
Qed.

End FlagConversion.

(** C3 fails on a prediction tensor that holds an infinity (and, in
    float32, on a finite prediction whose square is one): the branch the
    flag switches off contributes zero times infinity, so the call
    returns NaN for either flag, while the mean of the active term alone,
    [soft_factor * (preds - 1)^2] or [soft_factor * (preds + 1)^2], is
    plus infinity. *)
Lemma C3_counterexample :
  let preds := {| shape := [1]%nat; data := [Inf false] |} in
  let f := map Fin (soft_factors sample_rng 1) in
  wf preds
  /\ ragan_ls_loss preds (PyBool true) sample_rng
     = Returned (NaN, advance sample_rng 1)
  /\ mean_list (zip_with real_branch_float f (data preds)) = Inf false
  /\ ragan_ls_loss preds (PyBool false) sample_rng
     = Returned (NaN, advance sample_rng 1)
  /\ mean_list (zip_with fake_branch_float f (data preds)) = Inf false
  /\ ~ (NaN ≈ Inf false).
Proof.
  cbv zeta. split; [reflexivity|]. split; [|split; [|split; [|split]]].
  - rewrite (ragan_ls_loss_eval _ (PyBool true) _ sample_rng eq_refl).
    reflexivity.
  - reflexivity.
  - rewrite (ragan_ls_loss_eval _ (PyBool false) _ sample_rng eq_refl).
    reflexivity.
  - reflexivity.
  - intros H. exact H.
Qed.

(** C3, amended: on a prediction tensor of finite elements within [B] of
    zero, [B] small enough for the terms and their sums to stay in the
    float32 range, and a boolean flag, [ragan_ls_loss] returns the mean
    over all elements of
    [r * soft_factor * (preds - 1)^2 + (1 - r) * soft_factor * (preds + 1)^2]
    with [r] one for [True] and zero for [False]; so with [True] it is the
    mean of [soft_factor * (preds - 1)^2] and with [False] the mean of
    [soft_factor * (preds + 1)^2]; on a non-empty tensor that mean is a
    finite value between zero and the largest float32. *)
Theorem C3_ragan_ls_loss_mean s ps b g B :
  wf (of_Q s ps) -> rng_valid g -> bounded B ps -> ragan_fits (numel s) B ->
  let f := soft_factors g (numel s) in
  exists v,
    ragan_ls_loss (of_Q s ps) (PyBool b) g = Returned (v, advance g (numel s))
    /\ length (zip_with (ragan_term (flag_weight b)) f ps) = length ps
    /\ v ≈ Qmean (zip_with (ragan_term (flag_weight b)) f ps)
    /\ (b = true -> v ≈ Qmean (zip_with real_branch f ps))
    /\ (b = false -> v ≈ Qmean (zip_with fake_branch f ps))
    /\ (ps <> [] -> exists q, v = Fin q /\ 0 <= q /\ q <= float32_max).
Proof.
  intros Hwf Hg HB Hfit f. unfold wf in Hwf. cbn [data shape of_Q] in Hwf.
  rewrite length_map in Hwf.
  eexists. split.
  - apply (ragan_ls_loss_finite s ps (PyBool b) (flag_weight b)).
    destruct b; reflexivity.
  - split; [|split; [|split; [|split]]].
    + rewrite zip_with_length. unfold f. rewrite soft_factors_length. lia.
    + apply Qmean_zip_ext, kernel_term_spec.
    + intros ->. apply Qmean_zip_ext, kernel_term_real.
    + intros ->. apply Qmean_zip_ext. intros x y.
      unfold kernel_term, fake_branch. simpl. ring.
    + intros Hne.
      destruct (ragan_mean_range b g (numel s) ps B Hg Hwf Hne HB Hfit)
        as (q & Hq & Hq0 & Hq1).
      exists q. split; [exact Hq|]. split; lra.
Qed.

Lemma C3_ragan_ls_loss_mean_witness :
  wf sample_preds /\
  exists v,
    ragan_ls_loss sample_preds (PyBool true) sample_rng
    = Returned (v, advance sample_rng 2)
    /\ v ≈ Qmean (zip_with real_branch
                           (soft_factors sample_rng 2) [1 # 2; -3 # 4]).
Proof.
  assert (Hwf : wf sample_preds) by reflexivity.
  split; [exact Hwf|].
  assert (HB : bounded 1 [1 # 2; -3 # 4])
    by (repeat constructor; intros E; discriminate E).
  assert (Hfit : ragan_fits 2 1) by (intros E; discriminate E).
  destruct (C3_ragan_ls_loss_mean [2; 1]%nat [1 # 2; -3 # 4] true sample_rng 1
              Hwf sample_rng_valid HB Hfit)
    as (v & Hv & _ & _ & Ht & _).
  exists v. split; [exact Hv|exact (Ht eq_refl)].
Defined.

(** C4: on every call of [ragan_ls_loss] the soft-label factor has the
    shape of [preds], one element per element of that shape; each element
    is one plus a noise value in [-0.1, 0.1], hence lies in [0.9, 1.1];
    the loss the call returns is the mean of the terms weighted by these
    very elements.  The noise is read from the random generator at the
    call's own draw positions and nothing but the advanced position is
    kept: the next call reads the draws that follow, so its factor and
    its loss are the same whatever the draws of the first call were. *)
Theorem C4_soft_label_factor_fresh preds g :
  rng_valid g ->
  let n := numel (shape preds) in
  exists fs,
    soft_label_factor preds g = Returned (of_Q (shape preds) fs, advance g n)
    /\ length fs = n
    /\ (forall i, (i < n)%nat ->
          nth i fs 0 = 1 + 0.1 * noise_at g i
          /\ -0.1 <= 0.1 * noise_at g i <= 0.1
          /\ 0.9 <= nth i fs 0 <= 1.1)
    /\ (forall s ps b B,
          preds = of_Q s ps -> bounded B ps -> ragan_fits n B ->
          exists v,
            ragan_ls_loss preds (PyBool b) g = Returned (v, advance g n)
            /\ v ≈ Qmean (zip_with (ragan_term (flag_weight b)) fs ps))
    /\ (forall g', redrawn g g' n ->
          exists fs',
            soft_label_factor preds (advance g n)
            = Returned (of_Q (shape preds) fs', advance (advance g n) n)
            /\ soft_label_factor preds (advance g' n)
               = Returned (of_Q (shape preds) fs', advance (advance g' n) n)
            /\ (forall j, (j < n)%nat ->
                  nth j fs' 0
                  = 1 + 0.1 * (-1 + (1 - -1) * tape g (cursor g + n + j)))
            /\ (forall b, exists x,
                  ragan_ls_loss preds (PyBool b) (advance g n)
                  = Returned (x, advance (advance g n) n)
                  /\ ragan_ls_loss preds (PyBool b) (advance g' n)
                     = Returned (x, advance (advance g' n) n))).
Proof.
  intros Hg n. exists (soft_factors g n).
  split; [apply soft_label_factor_eval|].
  split; [apply soft_factors_length|].
  split; [|split].
  - intros i Hi. rewrite soft_factors_nth by assumption.
    destruct (noise_range g i Hg). repeat split; lra.
  - intros s ps b B -> _ _. eexists. split.
    + apply (ragan_ls_loss_finite s ps (PyBool b) (flag_weight b)).
      destruct b; reflexivity.
    + apply Qmean_zip_ext, kernel_term_spec.
  - intros g' Hr. exists (soft_factors (advance g n) n).
    split; [apply soft_label_factor_eval|].
    split; [|split].
    + rewrite <- (soft_factors_redrawn g g' n n Hr).
      apply soft_label_factor_eval.
    + intros j Hj. rewrite soft_factors_nth by assumption. reflexivity.
    + intros b.
      assert (Hv : tf_constant (PyBool b) = Returned (Fin (flag_weight b)))
        by now destruct b.
      eexists. split.
      * apply (ragan_ls_loss_eval preds (PyBool b) _ (advance g n) Hv).
      * rewrite (ragan_ls_loss_eval preds (PyBool b) _ (advance g' n) Hv).
        fold n. now rewrite (soft_factors_redrawn g g' n n Hr).
Qed.

Lemma C4_soft_label_factor_fresh_witness :
  rng_valid sample_rng /\
  exists fs x,
    soft_label_factor sample_preds sample_rng
    = Returned (of_Q [2; 1]%nat fs, advance sample_rng 2)
    /\ ragan_ls_loss sample_preds (PyBool true) (advance sample_rng 2)
       = Returned (x, advance (advance sample_rng 2) 2)
    /\ ragan_ls_loss sample_preds (PyBool true) (advance sample_rng' 2)
       = Returned (x, advance (advance sample_rng' 2) 2).
Proof.
  split; [exact sample_rng_valid|].
  destruct (C4_soft_label_factor_fresh sample_preds sample_rng sample_rng_valid)
    as (fs & H1 & _ & _ & _ & H5).
  destruct (H5 sample_rng' sample_rng'_redrawn) as (fs' & _ & _ & _ & H6).
  destruct (H6 true) as (x & Hx & Hx').
  exists fs, x. repeat split; assumption.
Defined.

(** C5: on every valid prediction tensor (non-empty, of finite elements
    within [B] of zero, [B] small enough for the terms and their sums to
    stay in the float32 range), for both values of the flag and for every
    draw of the soft-label noise, [ragan_ls_loss] returns a value that is
    at least zero, and finite. *)
Theorem C5_ragan_ls_loss_nonneg s ps b g B :
  wf (of_Q s ps) -> ps <> [] -> rng_valid g ->
  bounded B ps -> ragan_fits (numel s) B ->
  exists v g',
    ragan_ls_loss (of_Q s ps) (PyBool b) g = Returned (v, g')
    /\ nonneg v
    /\ exists q, v = Fin q /\ q <= float32_max.
Proof.
  intros Hwf Hne Hg HB Hfit. unfold wf in Hwf. cbn [data shape of_Q] in Hwf.
  rewrite length_map in Hwf.
  destruct (ragan_mean_range b g (numel s) ps B Hg Hwf Hne HB Hfit)
    as (q & Hq & Hq0 & Hq1).
  exists (Fin q), (advance g (numel s)). split.
  - rewrite <- Hq.
    apply (ragan_ls_loss_finite s ps (PyBool b) (flag_weight b)).
    destruct b; reflexivity.
  - split; [exact Hq0|]. exists q. split; [reflexivity|lra].
Qed.

Lemma C5_ragan_ls_loss_nonneg_witness :
  exists v g',
    ragan_ls_loss sample_preds (PyBool false) sample_rng = Returned (v, g')
    /\ nonneg v.
Proof.
  destruct (C5_ragan_ls_loss_nonneg [2; 1]%nat [1 # 2; -3 # 4] false
              sample_rng 1) as (v & g' & H & Hn & _).
  - reflexivity.
  - discriminate.
  - exact sample_rng_valid.
  - repeat constructor; intros E; discriminate E.
  - intros E; discriminate E.
  - exists v, g'. split; assumption.
Defined.

(** C9 fails as stated: the integer 2 is not a boolean, and the call
    returns a loss instead of raising. *)
Lemma C9_counterexample :
  (forall b, PyInt 2 <> PyBool b)
  /\ (exists v, ragan_ls_loss sample_preds (PyInt 2) sample_rng
                = Returned (v, advance sample_rng 2))
  /\ ~ (exists e, ragan_ls_loss sample_preds (PyInt 2) sample_rng = Raised e).
Proof.
  split; [discriminate|].
  pose proof (ragan_ls_loss_finite [2; 1]%nat [1 # 2; -3 # 4] (PyInt 2) 2
                sample_rng eq_refl) as H.
  change (of_Q [2; 1]%nat [1 # 2; -3 # 4]) with sample_preds in H.
  split.
  - eexists. exact H.
  - intros [e He]. rewrite H in He. discriminate.
Qed.

(** C9, as the code has it: a flag that [tf.constant] cannot convert to a
    float (a string, [None]) makes [ragan_ls_loss] and [discriminator_loss]
    raise the conversion's error; a number that is not a boolean is
    accepted and converted, and while it lies within [R] of zero and the
    predictions within [B] of zero, [R] and [B] small enough for the
    weighted terms and their sums to stay in the float32 range, it is
    used as the weight [r] of the two terms. *)
Theorem C9_flag_conversion s ps G g :
  wf (of_Q s ps) -> rng_valid g ->
  let preds := of_Q s ps in
  let pair := {| local_ := preds; global_ := G |} in
  (forall str, ragan_ls_loss preds (PyStr str) g = Raised TypeError
               /\ discriminator_loss pair (PyStr str) g = Raised TypeError)
  /\ (ragan_ls_loss preds PyNone g = Raised ValueError
      /\ discriminator_loss pair PyNone g = Raised ValueError)
  /\ (forall z R B,
        - R <= inject_Z z -> inject_Z z <= R ->
        bounded B ps -> weighted_fits (numel s) R B ->
        exists v,
          ragan_ls_loss preds (PyInt z) g = Returned (v, advance g (numel s))
          /\ v ≈ Qmean (zip_with (ragan_term (inject_Z z))
                                 (soft_factors g (numel s)) ps))
  /\ (forall x R B,
        - R <= x -> x <= R ->
        bounded B ps -> weighted_fits (numel s) R B ->
        exists v,
          ragan_ls_loss preds (PyFloat x) g = Returned (v, advance g (numel s))
          /\ v ≈ Qmean (zip_with (ragan_term x) (soft_factors g (numel s)) ps)).
Proof.
  intros _ _ preds pair.
  split; [|split; [|split]].
  - intros str. now apply raised_flag.
  - now apply raised_flag.
  - intros z R B Hl Hu _ [HR _]. eexists. split.
    + apply (ragan_ls_loss_finite s ps (PyInt z) (inject_Z z)).
      exact (tf_constant_int z R Hl Hu HR).
    + apply Qmean_zip_ext, kernel_term_spec.
  - intros x R B Hl Hu _ [HR _]. eexists. split.
    + apply (ragan_ls_loss_finite s ps (PyFloat x) x).
      exact (tf_constant_float x R Hl Hu HR).
    + apply Qmean_zip_ext, kernel_term_spec.
Qed.

Lemma C9_flag_conversion_witness :
  ragan_ls_loss sample_preds (PyStr "real") sample_rng = Raised TypeError
  /\ exists v,
       ragan_ls_loss sample_preds (PyFloat (1 # 2)) sample_rng
       = Returned (v, advance sample_rng 2)
       /\ v ≈ Qmean (zip_with (ragan_term (1 # 2))
                              (soft_factors sample_rng 2) [1 # 2; -3 # 4]).
Proof.
  destruct (C9_flag_conversion [2; 1]%nat [1 # 2; -3 # 4] sample_preds
              sample_rng eq_refl sample_rng_valid) as (Hs & _ & _ & Hx).
  split; [exact (proj1 (Hs "real"%string))|].
  apply (Hx (1 # 2) 1 1).
  - intros E; discriminate E.
  - intros E; discriminate E.
  - repeat constructor; intros E; discriminate E.
  - split; intros E; discriminate E.
Defined.

(** X3: the soft labels move the loss by at most ten percent: on finite
    predictions within the float32 range the value of [ragan_ls_loss]
    lies between 0.9 and 1.1 times the mean squared distance of the
    predictions to their target ([1] for the flag [True], [-1] for
    [False]). *)
Theorem X3_ragan_ls_loss_within_ten_percent s ps b g B :
  wf (of_Q s ps) -> ps <> [] -> rng_valid g ->
  bounded B ps -> ragan_fits (numel s) B ->
  exists v m,
    ragan_ls_loss (of_Q s ps) (PyBool b) g
    = Returned (Fin v, advance g (numel s))
    /\ Qmean (plain_terms b ps) = Fin m
    /\ 0.9 * m <= v /\ v <= 1.1 * m
    /\ v <= float32_max.
Proof.
  intros Hwf Hne Hg HB Hfit. unfold wf in Hwf. cbn [data shape of_Q] in Hwf.
  rewrite length_map in Hwf.
  destruct (ragan_mean_range b g (numel s) ps B Hg Hwf Hne HB Hfit)
    as (q & Hq & Hq0 & Hq1).
  set (fs := soft_factors g (numel s)) in *.
  assert (Hlen : length fs = length ps)
    by (unfold fs; now rewrite soft_factors_length).
  assert (Hv : tf_constant (PyBool b) = Returned (Fin (flag_weight b)))
    by now destruct b.
  pose proof (ragan_ls_loss_finite s ps (PyBool b) _ g Hv) as Hr.
  fold fs in Hr. rewrite Hq in Hr.
  rewrite (Qmean_nonempty _ (zip_with_nonempty _ fs ps Hlen Hne)) in Hq.
  rewrite zip_with_length, Hlen, Nat.min_id in Hq. injection Hq as Hq.
  assert (Hne' : plain_terms b ps <> [])
    by (unfold plain_terms; destruct ps; [congruence|discriminate]).
  do 2 eexists. split; [exact Hr|]. split; [apply (Qmean_nonempty _ Hne')|].
  rewrite plain_terms_length, <- Hq.
  destruct (Qsum_terms_bounds b fs ps Hlen
              (fun f Hf => soft_factors_in_range g _ f Hg Hf)) as [Hl Hu].
  pose proof (count_pos ps Hne) as Hn.
  apply Qinv_lt_0_compat in Hn. unfold Qdiv in *.
  set (d := / inject_Z (Z.of_nat (length ps))) in *.
  set (S1 := Qsum (plain_terms b ps)) in *.
  set (S2 := Qsum (zip_with (kernel_term (flag_weight b)) fs ps)) in *.
  split; [nra|]. split; [nra|]. rewrite Hq. lra.
Qed.

Lemma X3_ragan_ls_loss_within_ten_percent_witness :
  exists v m,
    ragan_ls_loss sample_preds (PyBool true) sample_rng
    = Returned (Fin v, advance sample_rng 2)
    /\ Qmean (plain_terms true [1 # 2; -3 # 4]) = Fin m
    /\ 0.9 * m <= v /\ v <= 1.1 * m /\ v <= float32_max.
Proof.
  apply (X3_ragan_ls_loss_within_ten_percent
           [2; 1]%nat [1 # 2; -3 # 4] true sample_rng 1).
  - reflexivity.
  - discriminate.
  - exact sample_rng_valid.
  - repeat constructor; intros E; discriminate E.
  - intros E; discriminate E.
Defined.

(** X4: the loss vanishes exactly on target: on finite predictions
    within the float32 range [ragan_ls_loss] returns zero if and only if
    every prediction equals [1] (flag [True]) or every prediction equals
    [-1] (flag [False]). *)
Theorem X4_ragan_ls_loss_zero_iff_on_target s ps b g B :
  wf (of_Q s ps) -> ps <> [] -> rng_valid g ->
  bounded B ps -> ragan_fits (numel s) B ->
  exists v,
    ragan_ls_loss (of_Q s ps) (PyBool b) g
    = Returned (Fin v, advance g (numel s))
    /\ (v == 0 <-> Forall (fun p => p == target b) ps)
    /\ 0 <= v /\ v <= float32_max.
Proof.
  intros Hwf Hne Hg HB Hfit. unfold wf in Hwf. cbn [data shape of_Q] in Hwf.
  rewrite length_map in Hwf.
  destruct (ragan_mean_range b g (numel s) ps B Hg Hwf Hne HB Hfit)
    as (q & Hq & Hq0 & Hq1).
  set (fs := soft_factors g (numel s)) in *.
  assert (Hlen : length fs = length ps)
    by (unfold fs; now rewrite soft_factors_length).
  assert (Hv : tf_constant (PyBool b) = Returned (Fin (flag_weight b)))
    by now destruct b.
  pose proof (ragan_ls_loss_finite s ps (PyBool b) _ g Hv) as Hr.
  fold fs in Hr. rewrite Hq in Hr.
  rewrite (Qmean_nonempty _ (zip_with_nonempty _ fs ps Hlen Hne)) in Hq.
  rewrite zip_with_length, Hlen, Nat.min_id in Hq. injection Hq as Hq.
  exists q. split; [exact Hr|]. split; [|split; lra].
  rewrite <- (Qsum_terms_zero b fs ps Hlen
                (fun f Hf => soft_factors_in_range g _ f Hg Hf)).
  pose proof (count_pos ps Hne) as Hn.
  rewrite <- Hq.
  set (d := inject_Z (Z.of_nat (length ps))) in *.
  set (S2 := Qsum (zip_with (kernel_term (flag_weight b)) fs ps)).
  split; intros H.
  - assert (E : S2 == S2 / d * d) by (field; lra). rewrite E, H. ring.
  - rewrite H. unfold Qdiv. ring.
Qed.

Lemma X4_ragan_ls_loss_zero_iff_on_target_witness :
  exists v,
    ragan_ls_loss (of_Q [3]%nat [-1; -1; -1]) (PyBool false) sample_rng
    = Returned (Fin v, advance sample_rng 3)
    /\ v == 0.
Proof.
  destruct (X4_ragan_ls_loss_zero_iff_on_target
              [3]%nat [-1; -1; -1] false sample_rng 1
              eq_refl ltac:(discriminate) sample_rng_valid)
    as (v & Hr & Hz & _).
  - repeat constructor; intros E; discriminate E.
  - intros E; discriminate E.
  - exists v. split; [exact Hr|]. apply Hz. repeat constructor.
Defined.

(** X5: on a pair of finite, non-empty score tensors within the float32
    range [discriminator_loss] returns a finite value that is at least
    zero, and it consumes one draw per element of the local scores and
    then one per element of the global scores. *)
Theorem X5_discriminator_loss_nonneg sl pl sg pg b g B :
  wf (of_Q sl pl) -> wf (of_Q sg pg) -> pl <> [] -> pg <> [] ->
  rng_valid g ->
  bounded B pl -> bounded B pg ->
  ragan_fits (numel sl) B -> ragan_fits (numel sg) B ->
  exists v,
    discriminator_loss {| local_ := of_Q sl pl; global_ := of_Q sg pg |}
                       (PyBool b) g
    = Returned (Fin v, advance (advance g (numel sl)) (numel sg))
    /\ 0 <= v /\ v <= float32_max
    /\ cursor (advance (advance g (numel sl)) (numel sg))
       = (cursor g + length pl + length pg)%nat.
Proof.
  intros Hl Hgl Hnl Hng Hg HBl HBg Hfl Hfg. unfold wf in Hl, Hgl.
  cbn [data shape of_Q] in Hl, Hgl. rewrite length_map in Hl, Hgl.
  assert (Hv : tf_constant (PyBool b) = Returned (Fin (flag_weight b)))
    by now destruct b.
  pose proof (discriminator_loss_finite sl pl sg pg _ _ g Hv) as Hd.
  cbv zeta in Hd.
  destruct (ragan_mean_range b g (numel sl) pl B Hg Hl Hnl HBl Hfl)
    as (q1 & E1 & H1 & H1').
  destruct (ragan_mean_range b (advance g (numel sl)) (numel sg) pg B
              (rng_valid_advance g _ Hg) Hgl Hng HBg Hfg)
    as (q2 & E2 & H2 & H2').
  rewrite E1, E2 in Hd. cbn [fadd] in Hd.
  exists (q1 + q2). split; [exact Hd|].
  split; [lra|]. split; [lra|]. cbn [advance cursor]. lia.
Qed.

Lemma X5_discriminator_loss_nonneg_witness :
  exists v,
    discriminator_loss sample_pair (PyBool false) sample_rng
    = Returned (Fin v, advance (advance sample_rng 4) 2)
    /\ 0 <= v.
Proof.
  destruct (X5_discriminator_loss_nonneg
              [2; 2]%nat [1; 0; -1; 1 # 3] [2; 1]%nat [1 # 2; -3 # 4] false
              sample_rng 1 eq_refl eq_refl ltac:(discriminate)
              ltac:(discriminate) sample_rng_valid) as (v & H & Hn & _).
  - repeat constructor; intros E; discriminate E.
  - repeat constructor; intros E; discriminate E.
  - intros E; discriminate E.
  - intros E; discriminate E.
  - exists v. split; assumption.
Defined.

Section FeatureRange.






End FeatureRange.








